(** * Discord-TS6-Presence: the query decoder, the protocol client and the
      change tracker of [src/index.ts], embedded in Rocq.

    Strings are sequences of code units ([string] of the Standard Library,
    one [ascii] per code unit below 256).  JavaScript objects used as
    records of decoded fields are finite maps ([gmap string string]); the
    [Set] and [Map] of the change tracker are [gset] and [gmap].  What the
    JavaScript runtime supplies ([Number], [String.prototype.localeCompare])
    is an interface, [JSRuntime], that the development is parametric in. *)

From Stdlib Require Import ZArith QArith Qcanon Ascii String.
From stdpp Require Import gmap strings list sorting.

Local Open Scope string_scope.

(** ** Code-unit level string primitives *)

Module JS.

Definition LF : ascii := "010"%char.
Definition CR : ascii := "013"%char.
Definition TAB : ascii := "009"%char.
Definition BACKSLASH : ascii := "\"%char.

(** [s.replace(/ab/g, r)] for a two-code-unit literal pattern [ab]:
    leftmost matches, scanning resumes after each match. *)
Fixpoint replaceAll2 (a b r : ascii) (s : string) : string :=
  match s with
  | EmptyString => EmptyString
  | String c t =>
      match t with
      | EmptyString => String c EmptyString
      | String d u =>
          if (Ascii.eqb c a && Ascii.eqb d b)%bool
          then String r (replaceAll2 a b r u)
          else String c (replaceAll2 a b r t)
      end
  end.

(** [s.startsWith(p)] *)
Definition startsWith (p s : string) : bool := String.prefix p s.

(** [s.includes(p)] *)
Fixpoint includes (p s : string) : bool :=
  (String.prefix p s
   || match s with
      | EmptyString => false
      | String _ t => includes p t
      end)%bool.

(** [s.split(sep)] for a one-code-unit separator; the empty string splits
    into one empty piece. *)
Fixpoint split (sep : ascii) (s : string) : list string :=
  match s with
  | EmptyString => [EmptyString]
  | String c t =>
      if Ascii.eqb c sep then EmptyString :: split sep t
      else match split sep t with
           | h :: r => String c h :: r
           | [] => [String c EmptyString]
           end
  end.

(** [s.indexOf(c)], [None] for -1. *)
Fixpoint indexOf (c : ascii) (s : string) : option nat :=
  match s with
  | EmptyString => None
  | String d t => if Ascii.eqb d c then Some 0 else S <$> indexOf c t
  end.

(** [s.slice(0, n)] and [s.slice(n)] for [0 <= n]. *)
Fixpoint take (n : nat) (s : string) : string :=
  match n, s with
  | S m, String c t => String c (take m t)
  | _, _ => EmptyString
  end.

Fixpoint drop (n : nat) (s : string) : string :=
  match n, s with
  | S m, String _ t => drop m t
  | _, _ => s
  end.

(** [s[i]], [None] for [undefined]. *)
Definition charAt (i : nat) (s : string) : option ascii := String.get i s.

(** White space and line terminators that [trim] strips, among the code
    units below 256: TAB, LF, VT, FF, CR, SP and NBSP. *)
Definition isWhite (c : ascii) : bool :=
  match c with
  | "009" | "010" | "011" | "012" | "013" | " " | "160" => true
  | _ => false
  end%char.

Fixpoint trimStart (s : string) : string :=
  match s with
  | EmptyString => EmptyString
  | String c t => if isWhite c then trimStart t else s
  end.

(** Drops the trailing white space. *)
Fixpoint trimEnd (s : string) : string :=
  match s with
  | EmptyString => EmptyString
  | String c t =>
      match trimEnd t with
      | EmptyString => if isWhite c then EmptyString else String c EmptyString
      | t' => String c t'
      end
  end.

Definition trim (s : string) : string := trimEnd (trimStart s).

(** [l.join(sep)] *)
Definition join (sep : string) (l : list string) : string := String.concat sep l.

(** [s.length > 0], which is also the truthiness of a string. *)
Definition nonEmpty (s : string) : bool :=
  match s with EmptyString => false | _ => true end.

End JS.

(** ** ResponseDecoder: [decodeQueryValue] *)

Definition decodeQueryValue (value : string) : string :=
  JS.replaceAll2 JS.BACKSLASH "t" JS.TAB
    (JS.replaceAll2 JS.BACKSLASH "r" JS.CR
      (JS.replaceAll2 JS.BACKSLASH "n" JS.LF
        (JS.replaceAll2 JS.BACKSLASH "/" "/"
          (JS.replaceAll2 JS.BACKSLASH JS.BACKSLASH JS.BACKSLASH
            (JS.replaceAll2 JS.BACKSLASH "p" "|"
              (JS.replaceAll2 JS.BACKSLASH "s" " " value)))))).

(** Modelled from the spec: the remote side's encoder ("the matching
    encoding scheme"), which is not part of this repository.  It is the
    inverse table of the substitutions of section 4.1, applied to each
    character on its own: space, pipe, backslash, slash, newline, carriage
    return and tab are written as a backslash followed by [s], [p], a
    backslash, a slash, [n], [r] and [t]; every other character is kept. *)
Definition escapeChar (c : ascii) : string :=
  if Ascii.eqb c " " then "\s"
  else if Ascii.eqb c "|" then "\p"
  else if Ascii.eqb c JS.BACKSLASH then "\\"
  else if Ascii.eqb c "/" then "\/"
  else if Ascii.eqb c JS.LF then "\n"
  else if Ascii.eqb c JS.CR then "\r"
  else if Ascii.eqb c JS.TAB then "\t"
  else String c EmptyString.

Fixpoint encodeQueryValue (s : string) : string :=
  match s with
  | EmptyString => EmptyString
  | String c t => escapeChar c +:+ encodeQueryValue t
  end.

(** The characters the round-trip property of section 8 ranges over. *)
Definition isDelimiterChar (c : ascii) : bool :=
  (Ascii.eqb c " " || Ascii.eqb c "|" || Ascii.eqb c JS.BACKSLASH
   || Ascii.eqb c "/" || Ascii.eqb c JS.LF || Ascii.eqb c JS.CR
   || Ascii.eqb c JS.TAB)%bool.

Fixpoint allChars (P : ascii → bool) (s : string) : bool :=
  match s with
  | EmptyString => true
  | String c t => (P c && allChars P t)%bool
  end.

(** ** ResponseDecoder: [parsePairs] *)

(** The assignment [out[key] = value] of a string to a field of the plain
    object [out].  The key [__proto__] names the accessor inherited from the
    object prototype, whose setter ignores a string: no field is made.  Every
    other key becomes a field of the object itself. *)
Definition PROTO : string := "__proto__".

Definition assignField (key value : string) (out : gmap string string)
    : gmap string string :=
  if String.eqb key PROTO then out else <[key := value]> out.

(** One turn of the loop of [parsePairs]: [out] is the object built so far.
    Only the fixed protocol field names are ever read back from it. *)
Definition parsePair (out : gmap string string) (pair : string) : gmap string string :=
  if JS.nonEmpty pair then
    match JS.indexOf "=" pair with
    | None => assignField pair EmptyString out
    | Some eqIndex =>
        assignField (JS.take eqIndex pair) (decodeQueryValue (JS.drop (S eqIndex) pair)) out
    end
  else out.

Definition parsePairs (record : string) : gmap string string :=
  foldl parsePair ∅ (JS.split " " record).

(** ** The runtime interface *)

(** A JavaScript number: a finite double is a rational. *)
Inductive JSNumber :=
  | NaN
  | Infinite (negative : bool)
  | Finite (q : Qc).

Definition isFinite (n : JSNumber) : bool :=
  match n with Finite _ => true | _ => false end.

(** [n >= 0] *)
Definition nonNegative (n : JSNumber) : bool :=
  match n with
  | NaN => false
  | Infinite negative => negb negative
  | Finite q => bool_decide (0 ≤ q)%Qc
  end.

Class JSRuntime := {
  (** [Number(s)] *)
  Number : string → JSNumber;
  (** [a.localeCompare(b)], by its sign *)
  localeCompare : string → string → comparison
}.

(** [l.sort(cmp)]: the sort is stable; an element is moved behind those it
    compares greater than. *)
Fixpoint insertBy {A} (cmp : A → A → comparison) (x : A) (l : list A) : list A :=
  match l with
  | [] => [x]
  | y :: t =>
      match cmp x y with
      | Gt => y :: insertBy cmp x t
      | _ => x :: y :: t
      end
  end.

Definition sortBy {A} (cmp : A → A → comparison) (l : list A) : list A :=
  foldr (insertBy cmp) [] l.

(** ** Data model *)

Record ActiveClient := {
  clid : string;
  uid : string;
  name : string;
  channelId : string;
  channelName : string;
  inputMuted : bool;
  outputMuted : bool;
  away : bool;
  streaming : bool;
  connectedMs : option JSNumber
}.

Record ServerSnapshot := {
  serverName : string;
  clients : list ActiveClient
}.

Record RecentlyLeftEntry := {
  entryName : string;
  leftAt : Z
}.

Definition RECENTLY_LEFT_WINDOW_MS : Z := 30 * 60 * 1000.

(** [field === "1"] and the like on a field of a parsed record. *)
Definition fieldIs (v : string) (record : gmap string string) (key : string) : bool :=
  bool_decide (record !! key = Some v).

(** ** SnapshotBuilder: [parseClientList] *)

Section Parsing.
Context `{JSRuntime}.

(** The object literal built by the [map] callback of [parseClientList]. *)
Definition toActiveClient (channelNameById : gmap string string)
    (client : gmap string string) : ActiveClient :=
  let channelId := default EmptyString (client !! "cid") in
  let connectedRaw := default EmptyString (client !! "client_connected_time") in
  let connectedMs :=
    if JS.nonEmpty connectedRaw then Some (Number connectedRaw) else None in
  {| clid := default EmptyString (client !! "clid");
     uid := default (default EmptyString (client !! "clid"))
              (client !! "client_unique_identifier");
     name := default "Unknown" (client !! "client_nickname");
     channelId := channelId;
     channelName := default "Unknown channel" (channelNameById !! channelId);
     inputMuted := fieldIs "1" client "client_input_muted"
                   || fieldIs "0" client "client_input_hardware";
     outputMuted := fieldIs "1" client "client_output_muted"
                    || fieldIs "0" client "client_output_hardware";
     away := fieldIs "1" client "client_away";
     streaming := fieldIs "1" client "client_is_streaming"
                  || fieldIs "1" client "client_is_recording";
     connectedMs := match connectedMs with
                    | Some n => if isFinite n then Some n else None
                    | None => None
                    end |}.

(** The first [filter]: real user sessions only. *)
Definition isUserRecord (client : gmap string string) : Prop :=
  client !! "client_type" = Some "0".

(** The last [filter]. *)
Definition hasIdentity (client : ActiveClient) : Prop :=
  JS.nonEmpty (name client) ∧ JS.nonEmpty (clid client) ∧ JS.nonEmpty (uid client).

Global Instance isUserRecord_dec client : Decision (isUserRecord client).
Proof. unfold isUserRecord. apply _. Defined.

Global Instance hasIdentity_dec client : Decision (hasIdentity client).
Proof. unfold hasIdentity. apply _. Defined.

Definition parseClientList (payloadLine : string)
    (channelNameById : gmap string string) : list ActiveClient :=
  if (negb (JS.nonEmpty payloadLine) || JS.startsWith "error " payloadLine)%bool
  then []
  else
    let clients := parsePairs <$> JS.split "|" payloadLine in
    filter hasIdentity
      (toActiveClient channelNameById <$> filter isUserRecord clients).

Definition findClientListPayload (lines : list string) : string :=
  default EmptyString
    (List.find (λ line, JS.includes "clid=" line && JS.includes "client_type=" line)
       lines).

(** One turn of the loop of [parseChannelList]. *)
Definition addChannel (channelMap : gmap string string) (rawChannel : string)
    : gmap string string :=
  let channel := parsePairs rawChannel in
  match channel !! "cid", channel !! "channel_name" with
  | Some cid, Some channel_name =>
      if (JS.nonEmpty cid && JS.nonEmpty channel_name)%bool
      then <[cid := channel_name]> channelMap
      else channelMap
  | _, _ => channelMap
  end.

Definition parseChannelList (lines : list string) : gmap string string :=
  let payload :=
    default EmptyString
      (List.find (λ line, JS.includes "cid=" line && JS.includes "channel_name=" line)
         lines) in
  if JS.nonEmpty payload then foldl addChannel ∅ (JS.split "|" payload) else ∅.

Definition parseServerName (lines : list string) : string :=
  let payload :=
    default EmptyString (List.find (JS.includes "virtualserver_name=") lines) in
  if JS.nonEmpty payload then
    match parsePairs payload !! "virtualserver_name" with
    | Some n => if JS.nonEmpty n then n else "TeamSpeak"
    | None => "TeamSpeak"
    end
  else "TeamSpeak".
End Parsing.

(** ** ChangeTracker: the signature *)

Inductive AudioState := deafened | muted | unmuted.

Definition audioStateText (state : AudioState) : string :=
  match state with
  | deafened => "deafened"
  | muted => "muted"
  | unmuted => "unmuted"
  end.

Definition effectiveAudioState (client : ActiveClient) : AudioState :=
  if outputMuted client then deafened
  else if inputMuted client then muted
  else unmuted.

(** [flag ? "1" : "0"] *)
Definition flagText (flag : bool) : string := if flag then "1" else "0".

Definition NEWLINE : string := String JS.LF EmptyString.

(** The string built for one client by the [map] callback of
    [signatureForClients]. *)
Definition clientRow (client : ActiveClient) : string :=
  JS.join "|"
    [uid client; name client; channelId client;
     audioStateText (effectiveAudioState client);
     flagText (away client); flagText (streaming client)].

Definition signatureForClients `{JSRuntime} (clients : list ActiveClient) : string :=
  JS.join NEWLINE (sortBy localeCompare (clientRow <$> clients)).

(** What a display of a member depends on, as the signature sees it. *)
Definition displayView (client : ActiveClient)
    : string * string * string * AudioState * bool * bool :=
  (uid client, name client, channelId client, effectiveAudioState client,
   away client, streaming client).

(** ** ProtocolClient *)

(** What a call either returns or throws ([message] of the [Error]). *)
Inductive Outcome (A : Type) :=
  | Returned (value : A)
  | Thrown (message : string).
Arguments Returned {A} value.
Arguments Thrown {A} message.

(** What the shell stream does while the reader waits for data: a chunk
    arrives, or the inactivity window of [waitForMoreData] elapses. *)
Inductive StreamEvent :=
  | Chunk (data : string)
  | Silence.

(** A session: the receive buffer, what was written to the stream (latest
    first), and what the stream will deliver. *)
Record TeamSpeakSshQuery := {
  buffer : string;
  written : list string;
  incoming : list StreamEvent
}.

Definition CRLF : string := String JS.CR (String JS.LF EmptyString).

Definition TIMEOUT_MESSAGE : string := "Timed out waiting for TeamSpeak query response".

(** [idx] of [readUntilErrorLine]: the first line break of the buffer. *)
Definition lineBreak (buffer : string) : option nat :=
  let idxN := JS.indexOf JS.LF buffer in
  let idxR := JS.indexOf JS.CR buffer in
  match idxN, idxR with
  | None, _ => idxR
  | _, None => idxN
  | Some n, Some r => Some (Nat.min n r)
  end.

(** [consume] of [readUntilErrorLine]: a CR LF or LF CR pair is one break. *)
Definition consumed (buffer : string) (idx : nat) : nat :=
  let first := JS.charAt idx buffer in
  let second := JS.charAt (idx + 1) buffer in
  if (bool_decide (first = Some JS.CR ∧ second = Some JS.LF)
      || bool_decide (first = Some JS.LF ∧ second = Some JS.CR))%bool
  then idx + 2 else idx + 1.

(** The turns of the loop of [readUntilErrorLine] that need no new data. *)
Inductive Scan :=
  | Terminal (lines : list string) (rest : string)
  | Starved (lines : list string) (rest : string).

Fixpoint scanLines (fuel : nat) (buffer : string) (lines : list string) : Scan :=
  match lineBreak buffer with
  | None => Starved lines buffer
  | Some idx =>
      let line := JS.trim (JS.take idx buffer) in
      let buffer' := JS.drop (consumed buffer idx) buffer in
      let lines' := if JS.nonEmpty line then (lines ++ [line])%list else lines in
      if JS.startsWith "error id=" line then Terminal lines' buffer'
      else match fuel with
           | O => Starved lines' buffer'
           | S fuel' => scanLines fuel' buffer' lines'
           end
  end.

(** [readUntilErrorLine], from the buffer [buffer] and the lines [lines]
    collected so far; every turn of [scanLines] shortens the buffer, so its
    length is fuel enough. *)
Fixpoint readLinesFrom (events : list StreamEvent) (buffer : string)
    (lines : list string) : Outcome (list string) * string * list StreamEvent :=
  match scanLines (String.length buffer) buffer lines with
  | Terminal lines' rest => (Returned lines', rest, events)
  | Starved lines' rest =>
      match events with
      | Chunk data :: events' => readLinesFrom events' (rest +:+ data) lines'
      | Silence :: events' => (Thrown TIMEOUT_MESSAGE, rest, events')
      | [] => (Thrown TIMEOUT_MESSAGE, rest, [])
      end
  end.

Definition readUntilErrorLine (query : TeamSpeakSshQuery)
    : Outcome (list string) * TeamSpeakSshQuery :=
  let '(result, rest, events) := readLinesFrom (incoming query) (buffer query) [] in
  (result, {| buffer := rest; written := written query; incoming := events |}).

(** [lines.slice(0, -1)] *)
Definition dropLast (lines : list string) : list string :=
  take (length lines - 1) lines.

(** [this.stream.write(text)] *)
Definition write (query : TeamSpeakSshQuery) (text : string) : TeamSpeakSshQuery :=
  {| buffer := buffer query;
     written := text :: written query;
     incoming := incoming query |}.

Definition command (query : TeamSpeakSshQuery) (commandText : string)
    : Outcome (list string) * TeamSpeakSshQuery :=
  let query := write query (commandText +:+ CRLF) in
  match readUntilErrorLine query with
  | (Thrown message, query) => (Thrown message, query)
  | (Returned lines, query) =>
      let errorLine :=
        default EmptyString (List.find (JS.includes "error id=") (reverse lines)) in
      let error := parsePairs errorLine in
      if bool_decide (error !! "id" = Some "0")
      then (Returned (dropLast lines), query)
      else
        let msg := default "Unknown TeamSpeak query error" (error !! "msg") in
        (Thrown ("TeamSpeak query command failed ("
                 +:+ default "undefined" (error !! "id") +:+ "): " +:+ msg),
         query)
  end.

(** ** SnapshotBuilder: the per-client detail lookups *)

Section Snapshot.
Context `{JSRuntime}.

(** The body of the [try] of [fillConnectedTimes] after the lookup has
    returned [infoLines]. *)
Definition refineClient (client : ActiveClient) (infoLines : list string)
    : ActiveClient :=
  let payload :=
    default (default EmptyString (head infoLines))
      (List.find (JS.includes "client_type=") infoLines) in
  let info := parsePairs payload in
  let raw :=
    default (default EmptyString (info !! "client_connected_time"))
      (info !! "connection_connected_time") in
  let ms := if JS.nonEmpty raw then Number raw else NaN in
  {| clid := clid client;
     uid := uid client;
     name := name client;
     channelId := channelId client;
     channelName := channelName client;
     inputMuted := inputMuted client;
     outputMuted := outputMuted client;
     away := away client;
     streaming := fieldIs "1" info "client_is_streaming"
                  || fieldIs "1" info "client_is_recording";
     connectedMs := if (isFinite ms && nonNegative ms)%bool then Some ms
                    else connectedMs client |}.

(** One turn of the loop: the lookup and its [catch]. *)
Definition fillOne (query : TeamSpeakSshQuery) (client : ActiveClient)
    : ActiveClient * TeamSpeakSshQuery :=
  match command query ("clientinfo clid=" +:+ clid client) with
  | (Returned infoLines, query') => (refineClient client infoLines, query')
  | (Thrown _, query') => (client, query')
  end.

Fixpoint fillConnectedTimes (query : TeamSpeakSshQuery)
    (clients : list ActiveClient) : list ActiveClient * TeamSpeakSshQuery :=
  match clients with
  | [] => ([], query)
  | client :: rest =>
      let '(client', query') := fillOne query client in
      let '(rest', query'') := fillConnectedTimes query' rest in
      (client' :: rest', query'')
  end.

(** The lookups of [fillConnectedTimes] in the order they are issued: what
    each one returned or threw. *)
Fixpoint detailLookups (query : TeamSpeakSshQuery)
    (clients : list ActiveClient) : list (Outcome (list string)) :=
  match clients with
  | [] => []
  | client :: rest =>
      let '(result, query') :=
        command query ("clientinfo clid=" +:+ clid client) in
      result :: detailLookups query' rest
  end.

(** [fetchServerSnapshot] on a session that is already open and has
    selected its server. *)
Definition fetchServerSnapshot (query : TeamSpeakSshQuery)
    : Outcome ServerSnapshot * TeamSpeakSshQuery :=
  match command query "serverinfo" with
  | (Thrown message, query) => (Thrown message, query)
  | (Returned serverInfoLines, query) =>
      let serverName := parseServerName serverInfoLines in
      match command query "channellist -topic" with
      | (Thrown message, query) => (Thrown message, query)
      | (Returned channelLines, query) =>
          let channelNameById := parseChannelList channelLines in
          match command query "clientlist -uid -away -voice -times" with
          | (Thrown message, query) => (Thrown message, query)
          | (Returned lines, query) =>
              let clients :=
                parseClientList (findClientListPayload lines) channelNameById in
              let '(clients', query) := fillConnectedTimes query clients in
              (Returned {| serverName := serverName; clients := clients' |}, query)
          end
      end
  end.
End Snapshot.

(** ** ChangeTracker: the state and one turn of [syncLoop] *)

(** The module-level variables the tracker reads and writes. *)
Record TrackerState := {
  lastPublishedSignature : option string;
  lastPublishedAt : Z;
  lastClientIds : option (gset string);
  recentlyLeft : gmap string RecentlyLeftEntry;
  lastKnownNames : gmap string string
}.

(** The state at start-up and after [clearStatusChannel]. *)
Definition initialState : TrackerState :=
  {| lastPublishedSignature := None;
     lastPublishedAt := 0;
     lastClientIds := None;
     recentlyLeft := ∅;
     lastKnownNames := ∅ |}.

Definition forcedRefreshMs : Z := 30000.

(** [new Set(clients.map((client) => client.uid))] *)
Definition idsOf (clients : list ActiveClient) : gset string :=
  list_to_set (uid <$> clients).

Definition joinedNamesOf (previousIds : option (gset string))
    (clients : list ActiveClient) : list string :=
  match previousIds with
  | None => []
  | Some previous => name <$> filter (λ client, uid client ∉ previous) clients
  end.

(** The loop over [clients] that fills [lastKnownNames]. *)
Definition rememberNames (names : gmap string string)
    (clients : list ActiveClient) : gmap string string :=
  foldl (λ names client, <[uid client := name client]> names) names clients.

(** One turn of the loop over [previousIds]. *)
Definition noteDeparture (currentIds : gset string) (names : gmap string string)
    (now : Z) (departed : gmap string RecentlyLeftEntry) (prevId : string)
    : gmap string RecentlyLeftEntry :=
  if decide (prevId ∈ currentIds) then departed
  else <[prevId := {| entryName := default "Unknown" (names !! prevId);
                      leftAt := now |}]> departed.

Definition noteDepartures (previousIds : option (gset string))
    (currentIds : gset string) (names : gmap string string) (now : Z)
    (departed : gmap string RecentlyLeftEntry) : gmap string RecentlyLeftEntry :=
  match previousIds with
  | None => departed
  | Some previous =>
      foldl (noteDeparture currentIds names now) departed (elements previous)
  end.

(** One turn of the loop over the keys of [recentlyLeft]. *)
Definition expireEntry (currentIds : gset string) (now : Z)
    (departed : gmap string RecentlyLeftEntry) (id : string)
    : gmap string RecentlyLeftEntry :=
  match departed !! id with
  | None => departed
  | Some record =>
      if (bool_decide (id ∈ currentIds)
          || (RECENTLY_LEFT_WINDOW_MS <? now - leftAt record)%Z)%bool
      then delete id departed
      else departed
  end.

(** The loop over [[...recentlyLeft.keys()]], a copy of the keys taken
    before the first deletion. *)
Definition expireDepartures (currentIds : gset string) (now : Z)
    (departed : gmap string RecentlyLeftEntry) : gmap string RecentlyLeftEntry :=
  foldl (expireEntry currentIds now) departed ((map_to_list departed).*1).

(** Lines 577 to 607 of [syncLoop]: the membership bookkeeping of one poll.
    [lastClientIds] is only assigned at the end of the turn. *)
Definition observe (st : TrackerState) (clients : list ActiveClient) (now : Z)
    : TrackerState :=
  let currentIds := idsOf clients in
  let previousIds := lastClientIds st in
  let names := rememberNames (lastKnownNames st) clients in
  let departed := noteDepartures previousIds currentIds names now (recentlyLeft st) in
  {| lastPublishedSignature := lastPublishedSignature st;
     lastPublishedAt := lastPublishedAt st;
     lastClientIds := previousIds;
     recentlyLeft := expireDepartures currentIds now departed;
     lastKnownNames := names |}.

(** The condition of line 609. *)
Definition shouldPublish (st : TrackerState) (signature : string) (now : Z) : bool :=
  (bool_decide (lastPublishedSignature st ≠ Some signature)
   || (forcedRefreshMs <=? now - lastPublishedAt st)%Z)%bool.

(** How a turn of [syncLoop] ended. *)
Inductive Turn :=
  | Published (joinedNames : list string)
  | Skipped
  | Failed (reason : string).

(** The [try] block of [syncLoop] after the snapshot has been fetched at
    time [now].  [send] is what [updateDiscordMessage] (the presentation
    layer) does if it is called: it returns, or throws to the [catch]. *)
Definition syncStep `{JSRuntime} (st : TrackerState) (snapshot : ServerSnapshot)
    (now : Z) (send : Outcome unit) : TrackerState * Turn :=
  let clients :=
    sortBy (λ a b, localeCompare (name a) (name b)) (clients snapshot) in
  let signature := signatureForClients clients in
  let currentIds := idsOf clients in
  let joinedNames := joinedNamesOf (lastClientIds st) clients in
  let st1 := observe st clients now in
  if shouldPublish st1 signature now then
    match send with
    | Thrown reason => (st1, Failed reason)
    | Returned _ =>
        ({| lastPublishedSignature := Some signature;
            lastPublishedAt := now;
            lastClientIds := Some currentIds;
            recentlyLeft := recentlyLeft st1;
            lastKnownNames := lastKnownNames st1 |},
         Published joinedNames)
    end
  else
    ({| lastPublishedSignature := lastPublishedSignature st1;
        lastPublishedAt := lastPublishedAt st1;
        lastClientIds := Some currentIds;
        recentlyLeft := recentlyLeft st1;
        lastKnownNames := lastKnownNames st1 |},
     Skipped).

(** ** Proof support for the decoder *)

(** The substitutions of [decodeQueryValue] in the order they are applied:
    the character and the letter that follows the backslash. *)
Definition escapeTable : list (ascii * ascii) :=
  [(" ", "s"); ("|", "p"); (JS.BACKSLASH, JS.BACKSLASH); ("/", "/");
   (JS.LF, "n"); (JS.CR, "r"); (JS.TAB, "t")]%char.

Fixpoint escapeLetter (c : ascii) (table : list (ascii * ascii)) : option ascii :=
  match table with
  | [] => None
  | (d, x) :: table' => if Ascii.eqb c d then Some x else escapeLetter c table'
  end.

(** The encoding in which only the characters of [table] are escaped: what
    is left of an encoded value after the first substitutions. *)
Fixpoint encodeWith (table : list (ascii * ascii)) (s : string) : string :=
  match s with
  | EmptyString => EmptyString
  | String c t =>
      match escapeLetter c table with
      | Some x => String JS.BACKSLASH (String x (encodeWith table t))
      | None => String c (encodeWith table t)
      end
  end.

(** ** Proof support for the signature *)

(** The row of a client as a function of what [displayView] keeps. *)
Definition rowOfView (view : string * string * string * AudioState * bool * bool)
    : string :=
  let '(uid, name, channelId, state, away, streaming) := view in
  JS.join "|"
    [uid; name; channelId; audioStateText state; flagText away; flagText streaming].

(** No field separator in a string. *)
Definition pipeFree (s : string) : bool :=
  allChars (λ c, negb (Ascii.eqb c "|")) s.

(** No field separator in the identity fields of a client. *)
Definition plainFields (client : ActiveClient) : Prop :=
  pipeFree (uid client) ∧ pipeFree (name client) ∧ pipeFree (channelId client).

(** [a] is not sorted behind [b]. *)
Definition notAfter {A} (cmp : A → A → comparison) (a b : A) : Prop :=
  cmp a b ≠ Gt.

(** No two different rows of the list tie under [localeCompare]. *)
Definition tieFree `{JSRuntime} (clients : list ActiveClient) : Prop :=
  ∀ a b, a ∈ clientRow <$> clients → b ∈ clientRow <$> clients →
         localeCompare a b = Eq → a = b.

(** The identity fields of a view. *)
Definition plainView (view : string * string * string * AudioState * bool * bool)
    : Prop :=
  let '(uid, name, channelId, _, _, _) := view in
  pipeFree uid ∧ pipeFree name ∧ pipeFree channelId.

(** What follows a row in the joined signature: nothing after the last row,
    a newline and the remaining rows otherwise. *)
Definition rowsAfter (rows : list string) : string :=
  match rows with
  | [] => EmptyString
  | _ => NEWLINE +:+ JS.join NEWLINE rows
  end.

(** A row is the identity fields followed by the three derived flags. *)
Definition identityPrefix (client : ActiveClient) : string :=
  uid client +:+ "|" +:+ name client +:+ "|" +:+ channelId client.

Definition flagsSuffix (client : ActiveClient) : string :=
  "|" +:+ audioStateText (effectiveAudioState client)
  +:+ "|" +:+ flagText (away client) +:+ "|" +:+ flagText (streaming client).

(** ** A reference runtime *)

(** The value of a string of decimal digits. *)
Fixpoint decimalValue (acc : nat) (s : string) : option nat :=
  match s with
  | EmptyString => Some acc
  | String c t =>
      match Ascii.is_nat c with
      | Some d => decimalValue (10 * acc + d) t
      | None => None
      end
  end.

(** A runtime to run the model on concrete inputs: [localeCompare] orders
    strings by code units, and [Number] reads the unsigned decimal integers
    and gives [NaN] for everything else. *)
Definition codeUnitRuntime : JSRuntime :=
  {| Number := λ s,
       match decimalValue 0 s with
       | Some n => Finite (Q2Qc (inject_Z (Z.of_nat n)))
       | None => NaN
       end;
     localeCompare := String.compare |}.

(** ** A collating runtime *)

(** The soft hyphen, U+00AD, is one code unit. *)
Definition SOFT_HYPHEN : ascii := "173"%char.

Fixpoint withoutSoftHyphens (s : string) : string :=
  match s with
  | EmptyString => EmptyString
  | String c t =>
      if Ascii.eqb c SOFT_HYPHEN then withoutSoftHyphens t
      else String c (withoutSoftHyphens t)
  end.

(** A runtime whose [localeCompare] collates: the soft hyphen is ignored in
    the comparison, as the collation of a locale ignores it, so that strings
    which differ by soft hyphens only compare equal. *)
Definition collatingRuntime : JSRuntime :=
  {| Number := Number (JSRuntime := codeUnitRuntime);
     localeCompare := λ a b,
       String.compare (withoutSoftHyphens a) (withoutSoftHyphens b) |}.

(** ** Sample data *)

Definition sampleClient (uid name channelId : string)
    (inputMuted outputMuted away streaming : bool) : ActiveClient :=
  {| clid := "1"; uid := uid; name := name; channelId := channelId;
     channelName := "Lobby"; inputMuted := inputMuted;
     outputMuted := outputMuted; away := away; streaming := streaming;
     connectedMs := None |}.

Definition alice : ActiveClient := sampleClient "uidA=" "Alice" "7" false false false false.
Definition bob : ActiveClient := sampleClient "uidB=" "Bob" "7" true false false true.

(** Two connections of one identity, whose nicknames differ by a soft
    hyphen. *)
Definition ann : ActiveClient := sampleClient "uidD=" "Ann" "7" false false false false.
Definition annHyphenated : ActiveClient :=
  sampleClient "uidD=" ("An" +:+ String SOFT_HYPHEN "n") "7" false false false false.

(** Two client-list payloads as the wire can carry them: the nickname of
    the first and the unique id of the second hold an escaped pipe. *)
Definition pipeInName : string :=
  "clid=1 cid=7 client_type=0 client_unique_identifier=a client_nickname=b\pc".
Definition pipeInUid : string :=
  "clid=1 cid=7 client_type=0 client_unique_identifier=a\pb client_nickname=c".

(** A deafened member, with the microphone on and with the microphone muted. *)
Definition deafenedOnly : ActiveClient := sampleClient "uidC=" "Carol" "7" false true false false.
Definition deafenedAndMuted : ActiveClient := sampleClient "uidC=" "Carol" "7" true true false false.


(** What the loop over the keys of [recentlyLeft] leaves of an entry. *)
Definition surviving (currentIds : gset string) (now : Z) (id : string)
    (entry : option RecentlyLeftEntry) : option RecentlyLeftEntry :=
  match entry with
  | Some record =>
      if (bool_decide (id ∈ currentIds)
          || (RECENTLY_LEFT_WINDOW_MS <? now - leftAt record)%Z)%bool
      then None else Some record
  | None => None
  end.

Definition MINUTE_MS : Z := 60 * 1000.

(** The snapshot of a poll that found [clients]. *)
Definition snapshotOf (clients : list ActiveClient) : ServerSnapshot :=
  {| serverName := "TeamSpeak"; clients := clients |}.

(** The marker of the terminal status line. *)
Definition isStatusLine (line : string) : bool := JS.startsWith "error id=" line.

(** The message of the error [command] throws on the status line [terminal]. *)
Definition failureMessage (terminal : string) : string :=
  let error := parsePairs terminal in
  "TeamSpeak query command failed ("
  +:+ default "undefined" (error !! "id") +:+ "): "
  +:+ default "Unknown TeamSpeak query error" (error !! "msg").

(** What [command] makes of the lines the read returned (lines 341 to 348):
    the last line that holds the status marker decides. *)
Definition statusCheck (lines : list string) : Outcome (list string) :=
  let errorLine :=
    default EmptyString (List.find (JS.includes "error id=") (reverse lines)) in
  let error := parsePairs errorLine in
  if bool_decide (error !! "id" = Some "0") then Returned (dropLast lines)
  else Thrown (failureMessage errorLine).

(** A session with an empty buffer on which the stream delivers [events]. *)
Definition sessionWith (events : list StreamEvent) : TeamSpeakSshQuery :=
  {| buffer := EmptyString; written := []; incoming := events |}.

(** What the turn of [fillConnectedTimes] for [client] leaves of it, given
    what its lookup returned or threw. *)
Definition afterLookup `{JSRuntime} (client : ActiveClient)
    (result : Outcome (list string)) : ActiveClient :=
  match result with
  | Returned infoLines => refineClient client infoLines
  | Thrown _ => client
  end.

(** The record [fillConnectedTimes] reads from the lines of a lookup. *)
Definition detailRecord (infoLines : list string) : gmap string string :=
  parsePairs
    (default (default EmptyString (head infoLines))
       (List.find (JS.includes "client_type=") infoLines)).

(** The number the detail record supplies for the connected duration. *)
Definition detailConnectedMs `{JSRuntime} (info : gmap string string) : JSNumber :=
  let raw :=
    default (default EmptyString (info !! "client_connected_time"))
      (info !! "connection_connected_time") in
  if JS.nonEmpty raw then Number raw else NaN.

(** A streaming member as the client list reports her, and a session whose
    first lookup is answered without streaming fields, whose second lookup
    fails, and whose third lookup is answered with a connected time. *)
Definition streamer : ActiveClient := sampleClient "uidS=" "Sue" "7" false false false true.

Definition detailSession : TeamSpeakSshQuery :=
  sessionWith
    [Chunk ("client_type=0 client_nickname=Sue" +:+ CRLF +:+ "error id=0 msg=ok" +:+ CRLF);
     Chunk ("error id=512 msg=invalid\sclientID" +:+ CRLF);
     Chunk ("client_type=0 connection_connected_time=4200 client_is_recording=1" +:+ CRLF
            +:+ "error id=0 msg=ok" +:+ CRLF)].

(** ** The whole turn of [syncLoop] *)

(** What the core reads of the configuration, as the text the template of
    the server-selection command renders. *)
Record Config := {
  tsServerPort : string;
  tsNickname : string
}.

(** [fetchServerSnapshot] from the module-level [queryClient]: a missing
    session is opened first ([connect] is what the transport does when
    asked) and selects its server.  The second component is [queryClient]
    afterwards. *)
Definition fetchServerSnapshotFrom `{JSRuntime} (config : Config)
    (queryClient : option TeamSpeakSshQuery) (connect : Outcome TeamSpeakSshQuery)
    : Outcome ServerSnapshot * option TeamSpeakSshQuery :=
  match queryClient with
  | Some query =>
      let '(result, query') := fetchServerSnapshot query in (result, Some query')
  | None =>
      match connect with
      | Thrown message => (Thrown message, None)
      | Returned query =>
          match command query ("use port=" +:+ tsServerPort config
                               +:+ " nickname=" +:+ tsNickname config) with
          | (Thrown message, query') => (Thrown message, Some query')
          | (Returned _, query') =>
              let '(result, query'') := fetchServerSnapshot query' in
              (result, Some query'')
          end
      end
  end.

(** The module-level state of the loop: the tracker and the session. *)
Record LoopState := {
  tracker : TrackerState;
  queryClient : option TeamSpeakSshQuery
}.

(** One turn of [syncLoop], with its [catch]: whatever is thrown closes and
    forgets the session. *)
Definition syncTurn `{JSRuntime} (config : Config) (ls : LoopState)
    (connect : Outcome TeamSpeakSshQuery) (now : Z) (send : Outcome unit)
    : LoopState * Turn :=
  match fetchServerSnapshotFrom config (queryClient ls) connect with
  | (Thrown reason, _) =>
      ({| tracker := tracker ls; queryClient := None |}, Failed reason)
  | (Returned snapshot, session) =>
      match syncStep (tracker ls) snapshot now send with
      | (st, Failed reason) => ({| tracker := st; queryClient := None |}, Failed reason)
      | (st, turn) => ({| tracker := st; queryClient := session |}, turn)
      end
  end.

(** ** Proof support for the framing and the tracker *)

(** No backslash in a string. *)
Definition backslashFree (s : string) : bool :=
  allChars (λ c, negb (Ascii.eqb c JS.BACKSLASH)) s.

(** A line break of [readUntilErrorLine]. *)
Definition isBreak (c : ascii) : bool := (Ascii.eqb c JS.LF || Ascii.eqb c JS.CR)%bool.

Definition breakFree (s : string) : bool := allChars (λ c, negb (isBreak c)) s.

(** The pieces of a text between its line breaks, every break on its own;
    the last piece is what follows the last break. *)
Fixpoint pieces (s : string) : list string :=
  match s with
  | EmptyString => [EmptyString]
  | String c t =>
      if isBreak c then EmptyString :: pieces t
      else match pieces t with
           | h :: r => String c h :: r
           | [] => [String c EmptyString]
           end
  end.

(** The lines a text holds: its pieces that a line break ends, trimmed,
    without the empty ones. *)
Definition receivedLines (s : string) : list string :=
  filter (λ line, JS.nonEmpty line) (JS.trim <$> removelast (pieces s)).

(** The lines up to the first status line, if there is one. *)
Fixpoint untilStatus (lines : list string) : option (list string) :=
  match lines with
  | [] => None
  | line :: rest =>
      if isStatusLine line then Some [line] else (line ::.) <$> untilStatus rest
  end.

(** The text of a list of chunks. *)
Definition chunksText (chunks : list string) : string :=
  foldr String.append EmptyString chunks.

(** Every member of the previous poll has a remembered name. *)
Definition namesKnown (st : TrackerState) : Prop :=
  ∀ previous id, lastClientIds st = Some previous → id ∈ previous →
    is_Some (lastKnownNames st !! id).

(** The fields of a client that the detail lookups never write. *)
Definition identityOf (client : ActiveClient)
    : string * string * string * string * string * bool * bool * bool :=
  (clid client, uid client, name client, channelId client, channelName client,
   inputMuted client, outputMuted client, away client).

(** The line a detail lookup writes to the stream. *)
Definition lookupLine (client : ActiveClient) : string :=
  "clientinfo clid=" +:+ clid client +:+ CRLF.

(** The character [c] does not occur in [s]. *)
Definition lacks (c : ascii) (s : string) : bool :=
  allChars (λ d, negb (Ascii.eqb d c)) s.

(** What the renderer relies on in a client of a snapshot. *)
Definition wellFormedClient (client : ActiveClient) : Prop :=
  JS.nonEmpty (clid client) ∧ JS.nonEmpty (uid client) ∧ JS.nonEmpty (name client)
  ∧ JS.nonEmpty (channelName client)
  ∧ ∀ n, connectedMs client = Some n → isFinite n = true.

(** The replies of a server with one channel and two users, one of them a
    query client, to the three list commands and to one detail lookup. *)
Definition pollSession : TeamSpeakSshQuery :=
  sessionWith
    [Chunk ("virtualserver_name=My\sServer virtualserver_port=9987" +:+ CRLF
            +:+ "error id=0 msg=ok" +:+ CRLF);
     Chunk ("cid=7 channel_name=Lobby|cid=8 channel_name=" +:+ CRLF
            +:+ "error id=0 msg=ok" +:+ CRLF);
     Chunk ("clid=1 cid=7 client_type=0 client_unique_identifier=uidA= "
            +:+ "client_nickname=Alice client_connected_time=12"
            +:+ "|clid=2 cid=8 client_type=1 client_nickname=serveradmin" +:+ CRLF
            +:+ "error id=0 msg=ok" +:+ CRLF);
     Chunk ("client_type=0 connection_connected_time=4200" +:+ CRLF
            +:+ "error id=0 msg=ok" +:+ CRLF)].

(** The state after a poll that found Alice and Bob and published. *)
Definition afterFirstPoll : TrackerState :=
  {| lastPublishedSignature :=
       Some (signatureForClients (H := codeUnitRuntime) [alice; bob]);
     lastPublishedAt := 1000000;
     lastClientIds := Some (idsOf [alice; bob]);
     recentlyLeft := ∅;
     lastKnownNames := {[ "uidA=" := "Alice"; "uidB=" := "Bob" ]} |}.

(** The line that selects the server on a new session. *)
Definition useLine (config : Config) : string :=
  "use port=" +:+ tsServerPort config +:+ " nickname=" +:+ tsNickname config +:+ CRLF.

(** What the stream does after its last chunk: nothing more, or the
    inactivity window elapses. *)
Definition quiet (events : list StreamEvent) : Prop :=
  match events with
  | Chunk _ :: _ => False
  | _ => True
  end.

(** A line as [readUntilErrorLine] collects it: not empty, without line
    break, and without white space at either end. *)
Definition collectedLine (line : string) : Prop :=
  JS.nonEmpty line = true ∧ breakFree line = true ∧ JS.trim line = line.

(** * Theorems *)

Local Open Scope list_scope.

(** ** The decoder *)

Example decode_sample :
  decodeQueryValue "Lobby\sA\pB\\C\/D" = "Lobby A|B\C/D".
Proof. reflexivity. Qed.

Lemma encodeWith_full s : encodeWith escapeTable s = encodeQueryValue s.
Proof.
  induction s as [|c t IH]; [reflexivity|].
  cbn [encodeWith encodeQueryValue]. rewrite IH. unfold escapeTable, escapeChar.
  cbn [escapeLetter].
  repeat (destruct (Ascii.eqb c _); [reflexivity|]). reflexivity.
Qed.

Lemma encodeWith_none s : encodeWith [] s = s.
Proof. induction s as [|c t IH]; [reflexivity|]. cbn. by rewrite IH. Qed.

Lemma delimiter_cases c :
  isDelimiterChar c = true →
  c = " "%char ∨ c = "|"%char ∨ c = JS.BACKSLASH ∨ c = "/"%char
  ∨ c = JS.LF ∨ c = JS.CR ∨ c = JS.TAB.
Proof.
  unfold isDelimiterChar. rewrite !orb_true_iff, !Ascii.eqb_eq. tauto.
Qed.

Section ReplaceAll2.
Variables a b r : ascii.

Lemma replaceAll2_hit u :
  JS.replaceAll2 a b r (String a (String b u)) = String r (JS.replaceAll2 a b r u).
Proof. cbn. by rewrite !Ascii.eqb_refl. Qed.

Lemma replaceAll2_other c t :
  Ascii.eqb c a = false →
  JS.replaceAll2 a b r (String c t) = String c (JS.replaceAll2 a b r t).
Proof. intros Hc. destruct t as [|d u]; cbn; [done|]. by rewrite Hc. Qed.

Lemma replaceAll2_miss c d u :
  Ascii.eqb d b = false →
  JS.replaceAll2 a b r (String c (String d u))
  = String c (JS.replaceAll2 a b r (String d u)).
Proof. intros Hd. cbn. by rewrite Hd, andb_false_r. Qed.

(** No match can start at [c] when the pattern's second character does
    not follow it. *)
Lemma replaceAll2_skip c t :
  (∀ d u, t = String d u → Ascii.eqb d b = false) →
  JS.replaceAll2 a b r (String c t) = String c (JS.replaceAll2 a b r t).
Proof.
  intros Ht. destruct t as [|d u]; [done|].
  apply replaceAll2_miss. by eapply Ht.
Qed.
End ReplaceAll2.

(** What an encoded value can start with: a backslash, or a character that
    is no longer escaped. *)
Lemma encodeWith_head table t d u :
  allChars isDelimiterChar t = true →
  encodeWith table t = String d u →
  d = JS.BACKSLASH ∨ (isDelimiterChar d = true ∧ escapeLetter d table = None).
Proof.
  destruct t as [|c t]; [done|]. cbn [allChars encodeWith].
  intros [Hc _]%andb_prop. destruct (escapeLetter c table) eqn:Hl.
  - intros [= <- _]. by left.
  - intros [= <- _]. by right.
Qed.

Ltac delimiter_split H :=
  apply delimiter_cases in H;
  destruct H as [->|[->|[->|[->|[->|[->| ->]]]]]].

(** One substitution of [decodeQueryValue] undoes one row of the table. *)
Lemma replaceAll2_pass k x y table s :
  drop k escapeTable = (x, y) :: table →
  allChars isDelimiterChar s = true →
  JS.replaceAll2 JS.BACKSLASH y x (encodeWith ((x, y) :: table) s)
  = encodeWith table s.
Proof.
  intros Hk. induction s as [|c t IH]; intros Hs; [reflexivity|].
  cbn [allChars] in Hs. apply andb_prop in Hs as [Hc Ht]. specialize (IH Ht).
  pose proof (encodeWith_head ((x, y) :: table) t) as Hhead.
  destruct k as [|[|[|[|[|[|[|k]]]]]]]; cbn in Hk;
    try (destruct k; discriminate Hk); injection Hk as <- <- <-;
    delimiter_split Hc;
    cbn [encodeWith escapeLetter Ascii.eqb Bool.eqb JS.BACKSLASH JS.LF JS.CR JS.TAB];
    repeat first
      [ rewrite replaceAll2_hit
      | rewrite replaceAll2_other by reflexivity
      | rewrite replaceAll2_miss by reflexivity
      | rewrite replaceAll2_skip
          by (intros d u Hdu; destruct (Hhead d u Ht Hdu) as [->|[Hd Hl]];
              [reflexivity | delimiter_split Hd; (discriminate Hl || reflexivity)]) ];
    by rewrite IH.
Qed.

(** C2: for every string [s] built from spaces, pipes, backslashes, slashes,
    newlines, carriage returns and tabs, decoding the encoding of [s] gives
    [s] back; [decodeQueryValue] is the chain of seven substitutions in the
    order of the source. *)
Theorem decodeQueryValue_encodeQueryValue s :
  allChars isDelimiterChar s = true →
  decodeQueryValue (encodeQueryValue s) = s.
Proof.
  intros Hs. unfold decodeQueryValue. rewrite <- encodeWith_full.
  unfold escapeTable.
  rewrite (replaceAll2_pass 0) by done.
  rewrite (replaceAll2_pass 1) by done.
  rewrite (replaceAll2_pass 2) by done.
  rewrite (replaceAll2_pass 3) by done.
  rewrite (replaceAll2_pass 4) by done.
  rewrite (replaceAll2_pass 5) by done.
  rewrite (replaceAll2_pass 6) by done.
  apply encodeWith_none.
Qed.

Lemma decodeQueryValue_encodeQueryValue_witness :
  decodeQueryValue (encodeQueryValue "\/ |\\ /") = "\/ |\\ /".
Proof. apply decodeQueryValue_encodeQueryValue. reflexivity. Defined.

(** Outside that alphabet the round trip can fail: a backslash followed by
    the letter [s] is encoded as two backslashes and [s], and the first
    substitution reads the second backslash and the [s] as a space. *)
Example decodeQueryValue_letter_after_backslash :
  encodeQueryValue "\s" = "\\s" ∧ decodeQueryValue (encodeQueryValue "\s") = "\ ".
Proof. split; reflexivity. Qed.

(** ** Strings *)

Lemma string_app_cons c (x y : string) : String c x +:+ y = String c (x +:+ y).
Proof. reflexivity. Qed.

Lemma string_app_assoc (x y z : string) : (x +:+ y) +:+ z = x +:+ (y +:+ z).
Proof. induction x as [|c x IH]; [done|]. by rewrite !string_app_cons, IH. Qed.

Lemma string_app_nil_l (x : string) : EmptyString +:+ x = x.
Proof. reflexivity. Qed.

Lemma string_app_inv_l (x y z : string) : x +:+ y = x +:+ z → y = z.
Proof. apply (inj (String.app x)). Qed.

(** A field that holds no separator ends at the first separator. *)
Lemma field_split (u u' x x' : string) :
  pipeFree u = true → pipeFree u' = true →
  u +:+ String "|" x = u' +:+ String "|" x' → u = u' ∧ x = x'.
Proof.
  unfold pipeFree. revert u'. induction u as [|c u IH]; intros [|c' u'] Hu Hu' Heq.
  - by injection Heq as ->.
  - rewrite string_app_nil_l, string_app_cons in Heq. injection Heq as <- _.
    cbn in Hu'. done.
  - rewrite string_app_nil_l, string_app_cons in Heq. injection Heq as -> _.
    cbn in Hu. done.
  - rewrite !string_app_cons in Heq. injection Heq as -> Heq.
    cbn in Hu, Hu'. apply andb_prop in Hu as [_ Hu]. apply andb_prop in Hu' as [_ Hu'].
    destruct (IH u' Hu Hu' Heq) as [-> ->]. done.
Qed.

(** ** The sort *)

Lemma insertBy_Permutation {A} (cmp : A → A → comparison) x l :
  insertBy cmp x l ≡ₚ x :: l.
Proof.
  induction l as [|y t IH]; [done|]. cbn. destruct (cmp x y); [done..|].
  rewrite IH. apply Permutation_swap.
Qed.

Lemma sortBy_Permutation {A} (cmp : A → A → comparison) l : sortBy cmp l ≡ₚ l.
Proof.
  induction l as [|x l IH]; [done|]. cbn. rewrite insertBy_Permutation.
  by rewrite IH.
Qed.

Section Sorting.
Context {A : Type} (cmp : A → A → comparison).
Hypothesis cmp_opp : ∀ a b, cmp b a = CompOpp (cmp a b).

Lemma insertBy_HdRel x y l :
  notAfter cmp y x → HdRel (notAfter cmp) y l → HdRel (notAfter cmp) y (insertBy cmp x l).
Proof.
  intros Hyx Hl. destruct l as [|z t]; cbn; [by constructor|].
  destruct (cmp x z); constructor; try done. by inversion Hl.
Qed.

Lemma insertBy_Sorted x l :
  Sorted (notAfter cmp) l → Sorted (notAfter cmp) (insertBy cmp x l).
Proof.
  induction 1 as [|y t Ht IH Hy]; cbn.
  - repeat constructor.
  - destruct (cmp x y) eqn:Hxy.
    + repeat constructor; try done. unfold notAfter. by rewrite Hxy.
    + repeat constructor; try done. unfold notAfter. by rewrite Hxy.
    + constructor; [done|]. apply insertBy_HdRel; [|done].
      unfold notAfter. by rewrite cmp_opp, Hxy.
Qed.

Lemma sortBy_Sorted l : Sorted (notAfter cmp) (sortBy cmp l).
Proof.
  induction l as [|x l IH]; cbn; [constructor|]. by apply insertBy_Sorted.
Qed.

Hypothesis cmp_trans : ∀ a b c, notAfter cmp a b → notAfter cmp b c → notAfter cmp a c.

(** When the comparison ties no two different elements of the list, the
    sorted list does not depend on the order of the elements. *)
Lemma sortBy_unique l l' :
  (∀ a b, a ∈ l → b ∈ l → cmp a b = Eq → a = b) →
  l ≡ₚ l' → sortBy cmp l = sortBy cmp l'.
Proof.
  intros Htie Hperm.
  assert (Transitive (notAfter cmp)) as Htrans by exact cmp_trans.
  apply (Sorted_unique_strong (notAfter cmp)).
  - intros a b Ha Hb Hab Hba.
    rewrite sortBy_Permutation in Ha. rewrite sortBy_Permutation, <- Hperm in Hb.
    apply Htie; [done..|]. unfold notAfter in *.
    rewrite cmp_opp in Hba. destruct (cmp a b); done.
  - apply sortBy_Sorted.
  - apply sortBy_Sorted.
  - by rewrite !sortBy_Permutation.
Qed.
End Sorting.

(** ** The signature *)

Lemma clientRow_view client : clientRow client = rowOfView (displayView client).
Proof. reflexivity. Qed.

Lemma clientRows_views (clients : list ActiveClient) :
  clientRow <$> clients = rowOfView <$> (displayView <$> clients).
Proof. induction clients as [|c l IH]; [done|]. cbn [fmap list_fmap]. by f_equal. Qed.

(** The amended C8: [localeCompare] is a consistent comparison (the sign
    flips with the arguments, and "not after" is transitive).  For a client
    list of which no two different rows tie under it, the signature is the
    signature of every permutation of the list, and, more generally, of
    every list with the same members and the same derived fields for each
    member. *)
Theorem signatureForClients_permutation `{JSRuntime} :
  (∀ a b, localeCompare b a = CompOpp (localeCompare a b)) →
  (∀ a b c, notAfter localeCompare a b → notAfter localeCompare b c →
            notAfter localeCompare a c) →
  ∀ clients clients',
    tieFree clients →
    (clients ≡ₚ clients' →
     signatureForClients clients = signatureForClients clients')
    ∧ (displayView <$> clients ≡ₚ displayView <$> clients' →
       signatureForClients clients = signatureForClients clients').
Proof.
  intros Hopp Htrans clients clients' Htie.
  assert (displayView <$> clients ≡ₚ displayView <$> clients' →
          signatureForClients clients = signatureForClients clients') as Hviews.
  { intros Hperm. unfold signatureForClients. f_equal.
    apply sortBy_unique; [done..|].
    rewrite !clientRows_views. by rewrite Hperm. }
  split; [|done]. intros Hperm. apply Hviews. by rewrite Hperm.
Qed.

Lemma join_cons_rowsAfter row rows :
  JS.join NEWLINE (row :: rows) = row +:+ rowsAfter rows.
Proof.
  destruct rows as [|r rs]; cbn [rowsAfter].
  - cbn. induction row as [|c row IH]; [done|]. by rewrite string_app_cons, <- IH.
  - reflexivity.
Qed.

Lemma rowOfView_fields u n c st a s (tail : string) :
  rowOfView (u, n, c, st, a, s) +:+ tail
  = u +:+ String "|" (n +:+ String "|" (c +:+ String "|"
      (audioStateText st +:+ String "|" (flagText a +:+ String "|"
        (flagText s +:+ tail))))).
Proof.
  cbn [rowOfView JS.join String.concat].
  by rewrite !string_app_assoc, !string_app_cons, !string_app_nil_l.
Qed.

Lemma audioStateText_inj st st' : audioStateText st = audioStateText st' → st = st'.
Proof. by destruct st, st'. Qed.

Lemma flagText_inj a a' : flagText a = flagText a' → a = a'.
Proof. by destruct a, a'. Qed.

(** The joined rows of views without separators in their identity fields
    determine the views, in order. *)
Lemma joined_rows_inj vs ws :
  Forall plainView vs → Forall plainView ws →
  JS.join NEWLINE (rowOfView <$> vs) = JS.join NEWLINE (rowOfView <$> ws) →
  vs = ws.
Proof.
  intros Hvs. revert ws. induction Hvs as [|v vs Hv Hvs IH]; intros ws Hws Heq.
  - destruct Hws as [|w ws Hw Hws]; [done|]. exfalso.
    cbn [fmap list_fmap] in Heq. rewrite join_cons_rowsAfter in Heq.
    destruct w as [[[[[u n] c] st] a] s]. rewrite rowOfView_fields in Heq.
    by destruct u.
  - destruct Hws as [|w ws Hw Hws].
    { exfalso. cbn [fmap list_fmap] in Heq. rewrite join_cons_rowsAfter in Heq.
      destruct v as [[[[[u n] c] st] a] s]. rewrite rowOfView_fields in Heq.
      by destruct u. }
    cbn [fmap list_fmap] in Heq. rewrite !join_cons_rowsAfter in Heq.
    destruct v as [[[[[u n] c] st] a] s], w as [[[[[u' n'] c'] st'] a'] s'].
    rewrite !rowOfView_fields in Heq.
    destruct Hv as (Hu & Hn & Hc), Hw as (Hu' & Hn' & Hc').
    apply field_split in Heq as [-> Heq]; [|by apply Is_true_true..].
    apply field_split in Heq as [-> Heq]; [|by apply Is_true_true..].
    apply field_split in Heq as [-> Heq]; [|by apply Is_true_true..].
    apply field_split in Heq as [->%audioStateText_inj Heq];
      [|by destruct st|by destruct st'].
    apply field_split in Heq as [->%flagText_inj Heq];
      [|by destruct a|by destruct a'].
    assert (s = s' ∧ rowsAfter (rowOfView <$> vs) = rowsAfter (rowOfView <$> ws))
      as [-> Htail].
    { destruct s, s'; cbn [flagText] in Heq; rewrite !string_app_cons in Heq;
        by injection Heq. }
    f_equal. destruct vs as [|v vs], Hws as [|w ws Hw Hws]; cbn in Htail; try done.
    apply IH; [by constructor|]. by injection Htail.
Qed.

(** The amended C1: when no unique id, name or channel id of either list
    holds the field separator [|], equal signatures mean the same members
    with, for each member, the same display name, channel id, derived audio
    state, away flag and streaming flag, whatever the order of either list:
    the display views are the same up to order, and so are the sets of
    unique ids. *)
Theorem signatureForClients_injective `{JSRuntime} clients clients' :
  Forall plainFields clients → Forall plainFields clients' →
  signatureForClients clients = signatureForClients clients' →
  displayView <$> clients ≡ₚ displayView <$> clients'
  ∧ idsOf clients = idsOf clients'.
Proof.
  intros Hplain Hplain' Hsig.
  assert (displayView <$> clients ≡ₚ displayView <$> clients') as Hviews.
  { unfold signatureForClients in Hsig. rewrite !clientRows_views in Hsig.
    destruct (Permutation_map_inv rowOfView _
                (sortBy_Permutation localeCompare (rowOfView <$> (displayView <$> clients))))
      as (vs & Hvs & Hpvs).
    destruct (Permutation_map_inv rowOfView _
                (sortBy_Permutation localeCompare (rowOfView <$> (displayView <$> clients'))))
      as (ws & Hws & Hpws).
    change (map rowOfView vs) with (rowOfView <$> vs) in Hvs.
    change (map rowOfView ws) with (rowOfView <$> ws) in Hws.
    assert (JS.join NEWLINE (rowOfView <$> vs) = JS.join NEWLINE (rowOfView <$> ws))
      as Hjoin by (rewrite <- Hvs, <- Hws; exact Hsig).
    apply joined_rows_inj in Hjoin.
    - rewrite Hpvs, Hpws. by rewrite Hjoin.
    - rewrite <- Hpvs. apply Forall_fmap. eapply Forall_impl; [exact Hplain|].
      by intros c (? & ? & ?).
    - rewrite <- Hpws. apply Forall_fmap. eapply Forall_impl; [exact Hplain'|].
      by intros c (? & ? & ?). }
  split; [done|]. unfold idsOf.
  assert (∀ l : list ActiveClient,
            uid <$> l = (λ v, v.1.1.1.1.1) <$> (displayView <$> l)) as Huid.
  { intros l. by rewrite <- list_fmap_compose. }
  rewrite !Huid. apply list_to_set_perm_L. by rewrite Hviews.
Qed.

(** *** Lines of a signature *)

Lemma split_nonempty sep s : ∃ h r, JS.split sep s = h :: r.
Proof.
  destruct s as [|c t]; cbn; [by eauto|].
  destruct (Ascii.eqb c sep); [by eauto|]. destruct (JS.split sep t); eauto.
Qed.

Lemma split_app sep (x y : string) :
  JS.split sep (x +:+ String sep y) = JS.split sep x ++ JS.split sep y.
Proof.
  induction x as [|c x IH].
  - rewrite string_app_nil_l. cbn. by rewrite Ascii.eqb_refl.
  - rewrite string_app_cons. cbn [JS.split]. rewrite IH.
    destruct (Ascii.eqb c sep); [done|].
    by destruct (split_nonempty sep x) as (h & r & ->).
Qed.

Lemma newline_app (x : string) : NEWLINE +:+ x = String JS.LF x.
Proof. reflexivity. Qed.

Lemma split_join rows :
  rows ≠ [] → JS.split JS.LF (JS.join NEWLINE rows) = rows ≫= JS.split JS.LF.
Proof.
  induction rows as [|row rows IH]; [done|]. intros _.
  rewrite join_cons_rowsAfter. destruct rows as [|r rs].
  - cbn [rowsAfter mbind list_bind]. rewrite app_nil_r. f_equal.
    induction row as [|c row IHrow]; [done|]. by rewrite string_app_cons, IHrow.
  - cbn [rowsAfter]. rewrite newline_app, split_app. by rewrite IH.
Qed.

Lemma split_free sep (x : string) :
  allChars (λ c, negb (Ascii.eqb c sep)) x = true → JS.split sep x = [x].
Proof.
  induction x as [|c x IH]; [done|]. cbn. intros [Hc Hx]%andb_prop.
  apply negb_true_iff in Hc. by rewrite Hc, IH.
Qed.

(** Appending a text without line break only extends the last line. *)
Lemma split_app_free sep (p : string) :
  ∃ pre q, ∀ x, allChars (λ c, negb (Ascii.eqb c sep)) x = true →
    JS.split sep (p +:+ x) = pre ++ [q +:+ x].
Proof.
  induction p as [|c p (pre & q & IH)].
  - exists [], EmptyString. intros x Hx. rewrite string_app_nil_l.
    by apply split_free.
  - destruct (Ascii.eqb c sep) eqn:Hc.
    + exists (EmptyString :: pre), q. intros x Hx.
      rewrite string_app_cons. cbn [JS.split]. by rewrite Hc, IH.
    + destruct pre as [|h r].
      * exists [], (String c q). intros x Hx.
        rewrite string_app_cons. cbn [JS.split]. by rewrite Hc, IH.
      * exists (String c h :: r), q. intros x Hx.
        rewrite string_app_cons. cbn [JS.split]. by rewrite Hc, IH.
Qed.

Lemma clientRow_prefix_suffix client :
  clientRow client = identityPrefix client +:+ flagsSuffix client.
Proof.
  unfold clientRow, identityPrefix, flagsSuffix. cbn [JS.join String.concat].
  by rewrite !string_app_assoc.
Qed.

Lemma flagsSuffix_free client :
  allChars (λ c, negb (Ascii.eqb c JS.LF)) (flagsSuffix client) = true.
Proof.
  unfold flagsSuffix, effectiveAudioState.
  by destruct (outputMuted client), (inputMuted client), (away client),
    (streaming client).
Qed.

Lemma flagsSuffix_inj c c' :
  flagsSuffix c = flagsSuffix c' →
  effectiveAudioState c = effectiveAudioState c' ∧ away c = away c'
  ∧ streaming c = streaming c'.
Proof.
  unfold flagsSuffix.
  by destruct (effectiveAudioState c), (effectiveAudioState c'),
    (away c), (away c'), (streaming c), (streaming c').
Qed.

(** The amended C3: two client lists with the same members that agree on
    every member but one, and for that member agree on unique id, name and
    channel id but differ in the derived audio state (deafened if the output
    is muted, else muted if the input is muted, else unmuted), the away flag
    or the streaming flag, have different signatures, whatever the order of
    either list. *)
Theorem signatureForClients_flag_change `{JSRuntime} rest c c' clients clients' :
  uid c = uid c' → name c = name c' → channelId c = channelId c' →
  effectiveAudioState c ≠ effectiveAudioState c' ∨ away c ≠ away c'
    ∨ streaming c ≠ streaming c' →
  clients ≡ₚ c :: rest → clients' ≡ₚ c' :: rest →
  signatureForClients clients ≠ signatureForClients clients'.
Proof.
  intros Huid Hname Hchan Hdiff Hperm Hperm' Hsig.
  assert (∀ l x r, l ≡ₚ x :: r → sortBy localeCompare (clientRow <$> l) ≠ []) as Hne.
  { intros l x r Hl Hnil. apply (f_equal length) in Hnil.
    rewrite sortBy_Permutation, length_fmap, Hl in Hnil. done. }
  apply (f_equal (JS.split JS.LF)) in Hsig. unfold signatureForClients in Hsig.
  rewrite !split_join in Hsig by eauto.
  assert (JS.split JS.LF (clientRow c) ≡ₚ JS.split JS.LF (clientRow c')) as Hrows.
  { apply (inj (.++ ((clientRow <$> rest) ≫= JS.split JS.LF))).
    change ((clientRow <$> c :: rest) ≫= JS.split JS.LF
            ≡ₚ (clientRow <$> c' :: rest) ≫= JS.split JS.LF).
    rewrite <- Hperm, <- Hperm'.
    rewrite <- (sortBy_Permutation localeCompare (clientRow <$> clients)).
    rewrite <- (sortBy_Permutation localeCompare (clientRow <$> clients')).
    by rewrite Hsig. }
  rewrite !clientRow_prefix_suffix in Hrows.
  assert (identityPrefix c = identityPrefix c') as Hpre.
  { unfold identityPrefix. by rewrite Huid, Hname, Hchan. }
  rewrite Hpre in Hrows.
  destruct (split_app_free JS.LF (identityPrefix c')) as (pre & q & Hsplit).
  rewrite !Hsplit in Hrows by apply flagsSuffix_free.
  apply (inj (pre ++.)) in Hrows. apply Permutation_singleton_inj in Hrows.
  apply string_app_inv_l, flagsSuffix_inj in Hrows as (? & ? & ?).
  by destruct Hdiff as [?|[?|?]].
Qed.

(** *** The signature on concrete lists *)

Example signature_sample :
  signatureForClients (H := codeUnitRuntime) [bob; alice]
  = "uidA=|Alice|7|unmuted|0|0" +:+ NEWLINE +:+ "uidB=|Bob|7|muted|0|1".
Proof. reflexivity. Qed.

(** C1 as stated fails: the two payloads parse to one client each, the
    signatures of the two lists are equal, and the unique ids differ. *)
Lemma signatureForClients_separator_collision :
  let clients := parseClientList (H := codeUnitRuntime) pipeInName ∅ in
  let clients' := parseClientList (H := codeUnitRuntime) pipeInUid ∅ in
  uid <$> clients = ["a"] ∧ uid <$> clients' = ["a|b"]
  ∧ signatureForClients (H := codeUnitRuntime) clients
    = signatureForClients (H := codeUnitRuntime) clients'
  ∧ idsOf clients ≠ idsOf clients'.
Proof.
  assert (uid <$> parseClientList (H := codeUnitRuntime) pipeInName ∅ = ["a"]) as H1
    by by vm_compute.
  assert (uid <$> parseClientList (H := codeUnitRuntime) pipeInUid ∅ = ["a|b"]) as H2
    by by vm_compute.
  split_and!; [done|done|by vm_compute|].
  unfold idsOf. rewrite H1, H2. intros Heq.
  assert ("a" ∈ (list_to_set ["a|b"] : gset string)) as Hin
    by (rewrite <- Heq; set_solver).
  set_solver.
Qed.

Lemma signatureForClients_injective_witness :
  displayView <$> [alice; bob] ≡ₚ displayView <$> [bob; alice]
  ∧ idsOf [alice; bob] = idsOf [bob; alice].
Proof.
  apply (signatureForClients_injective (H := codeUnitRuntime)).
  - repeat constructor.
  - repeat constructor.
  - reflexivity.
Defined.

(** C3 as stated fails: the two members differ in the input-muted flag and
    in nothing else, and the signatures are equal, since both are
    deafened. *)
Lemma signatureForClients_deafened_collision :
  inputMuted deafenedOnly ≠ inputMuted deafenedAndMuted
  ∧ displayView deafenedOnly = displayView deafenedAndMuted
  ∧ signatureForClients (H := codeUnitRuntime) [alice; deafenedOnly]
    = signatureForClients (H := codeUnitRuntime) [alice; deafenedAndMuted].
Proof. by split_and!. Qed.

Lemma signatureForClients_flag_change_witness :
  signatureForClients (H := codeUnitRuntime) [alice; bob]
  ≠ signatureForClients (H := codeUnitRuntime)
      [sampleClient "uidB=" "Bob" "7" true false true true; alice].
Proof.
  apply (signatureForClients_flag_change (H := codeUnitRuntime) [alice] bob
           (sampleClient "uidB=" "Bob" "7" true false true true)).
  - reflexivity.
  - reflexivity.
  - reflexivity.
  - right; left. discriminate.
  - apply Permutation_swap.
  - reflexivity.
Defined.

Lemma codeUnitRuntime_consistent :
  (∀ a b, String.compare b a = CompOpp (String.compare a b))
  ∧ (∀ a b c, notAfter String.compare a b → notAfter String.compare b c →
              notAfter String.compare a c)
  ∧ (∀ a b, String.compare a b = Eq → a = b).
Proof.
  split_and!.
  - intros a b. apply String.compare_antisym.
  - assert (∀ a b, notAfter String.compare a b ↔ String.le a b) as Hle.
    { intros a b. unfold notAfter, String.le, String.leb.
      destruct (String.compare a b); naive_solver. }
    intros a b c. rewrite !Hle. apply transitivity.
  - apply String.compare_eq_iff.
Qed.

Lemma signatureForClients_permutation_witness :
  signatureForClients (H := codeUnitRuntime) [alice; bob; deafenedOnly]
  = signatureForClients (H := codeUnitRuntime) [deafenedOnly; bob; alice].
Proof.
  destruct codeUnitRuntime_consistent as (Hopp & Htrans & Htie).
  apply (proj1 (signatureForClients_permutation (H := codeUnitRuntime)
                  Hopp Htrans [alice; bob; deafenedOnly] _
                  (λ a b _ _, Htie a b))).
  etrans; [apply Permutation_swap|]. etrans; [apply perm_skip, Permutation_swap|].
  apply Permutation_swap.
Defined.

(** Under a collation that ignores the soft hyphen, two rows that differ by
    a soft hyphen tie and keep the order of the input: the signature of the
    list is not the signature of its permutation, although the comparison
    is consistent. *)
Lemma signatureForClients_tie_order :
  (∀ a b, localeCompare (JSRuntime := collatingRuntime) b a
          = CompOpp (localeCompare (JSRuntime := collatingRuntime) a b))
  ∧ (∀ a b c,
       notAfter (localeCompare (JSRuntime := collatingRuntime)) a b →
       notAfter (localeCompare (JSRuntime := collatingRuntime)) b c →
       notAfter (localeCompare (JSRuntime := collatingRuntime)) a c)
  ∧ [ann; annHyphenated] ≡ₚ [annHyphenated; ann]
  ∧ signatureForClients (H := collatingRuntime) [ann; annHyphenated]
    ≠ signatureForClients (H := collatingRuntime) [annHyphenated; ann].
Proof.
  destruct codeUnitRuntime_consistent as (Hopp & Htrans & _).
  split_and!.
  - intros a b. apply Hopp.
  - intros a b c. apply Htrans.
  - apply Permutation_swap.
  - by vm_compute.
Qed.

(** ** The client list *)

Example parseClientList_sample :
  (λ c, (clid c, uid c, name c, channelName c, effectiveAudioState c))
    <$> parseClientList (H := codeUnitRuntime)
          "clid=1 cid=7 client_type=0 client_unique_identifier=uidA= client_nickname=Al\sice client_output_muted=1|clid=2 cid=7 client_type=1 client_nickname=serveradmin|clid=3 cid=8 client_type=0 client_nickname="
          {["7" := "Lobby"]}
  = [("1", "uidA=", "Al ice", "Lobby", deafened)].
Proof. by vm_compute. Qed.

Lemma filter_none {A} (P : A → Prop) `{∀ x, Decision (P x)} (l : list A) :
  (∀ x, x ∈ l → ¬ P x) → filter P l = [].
Proof.
  induction l as [|x l IH]; [done|]. intros Hl. rewrite filter_cons.
  rewrite decide_False by (apply Hl; left). apply IH. intros y Hy. apply Hl. by right.
Qed.

(** C4: a client is in the list [parseClientList] returns only if its id,
    unique id and name are non-empty and it comes from a record of client
    type 0; the list is exactly the clients of the records that pass, in
    order, so that every other record is dropped; an empty or error-prefixed
    payload line gives the empty list, and so does a payload none of whose
    records passes.  [parseClientList] is a total function: it has no
    failing outcome. *)
Theorem parseClientList_valid `{JSRuntime} payloadLine channelNameById :
  let records := parsePairs <$> JS.split "|" payloadLine in
  let passes record :=
    isUserRecord record ∧ hasIdentity (toActiveClient channelNameById record) in
  (∀ client, client ∈ parseClientList payloadLine channelNameById →
     JS.nonEmpty (clid client) ∧ JS.nonEmpty (uid client) ∧ JS.nonEmpty (name client)
     ∧ ∃ record, record ∈ records ∧ record !! "client_type" = Some "0"
                 ∧ client = toActiveClient channelNameById record)
  ∧ (payloadLine = EmptyString ∨ JS.startsWith "error " payloadLine →
     parseClientList payloadLine channelNameById = [])
  ∧ (payloadLine ≠ EmptyString → ¬ JS.startsWith "error " payloadLine →
     parseClientList payloadLine channelNameById
     = toActiveClient channelNameById <$> filter passes records)
  ∧ ((∀ record, record ∈ records → ¬ passes record) →
     parseClientList payloadLine channelNameById = []).
Proof.
  intros records passes.
  assert (filter hasIdentity
            (toActiveClient channelNameById <$> filter isUserRecord records)
          = toActiveClient channelNameById <$> filter passes records) as Hpass.
  { subst passes. induction records as [|r rs IH]; [done|].
    rewrite !filter_cons. destruct (decide (isUserRecord r)) as [Hr|Hr].
    - rewrite fmap_cons, filter_cons.
      destruct (decide (hasIdentity (toActiveClient channelNameById r))) as [Hi|Hi].
      + rewrite decide_True by done. by rewrite fmap_cons, IH.
      + rewrite decide_False by tauto. done.
    - rewrite decide_False by tauto. done. }
  assert (payloadLine ≠ EmptyString → ¬ JS.startsWith "error " payloadLine →
          parseClientList payloadLine channelNameById
          = toActiveClient channelNameById <$> filter passes records) as Hlist.
  { intros Hne Herr. unfold parseClientList.
    destruct payloadLine; [done|]. cbn [JS.nonEmpty negb orb].
    destruct (JS.startsWith _ _); [by destruct Herr|]. exact Hpass. }
  assert (payloadLine = EmptyString ∨ JS.startsWith "error " payloadLine →
          parseClientList payloadLine channelNameById = []) as Hempty.
  { intros [->|Herr]; [done|]. unfold parseClientList.
    apply Is_true_true in Herr. rewrite Herr. by rewrite orb_true_r. }
  split_and!; [|done|done|].
  - intros client Hin. unfold parseClientList in Hin.
    destruct (_ || _)%bool; [by apply elem_of_nil in Hin|].
    apply list_elem_of_filter in Hin as [(Hname & Hclid & Huid) Hin].
    apply list_elem_of_fmap in Hin as (record & -> & Hin).
    apply list_elem_of_filter in Hin as [Htype Hin]. eauto 10.
  - intros Hnone.
    destruct (decide (payloadLine = EmptyString)) as [Hp|Hp]; [by apply Hempty; left|].
    destruct (JS.startsWith "error " payloadLine);
      [by apply Hempty; right|].
    rewrite Hlist; [|done|exact id].
    by rewrite filter_none.
Qed.

(** ** The publish decision *)

Lemma observe_published st clients now :
  lastPublishedSignature (observe st clients now) = lastPublishedSignature st
  ∧ lastPublishedAt (observe st clients now) = lastPublishedAt st.
Proof. done. Qed.

(** C5: the publish decision is true exactly when the signature differs
    from the last published one or the time since the last publish has
    reached the forced interval; a turn of [syncLoop] publishes exactly
    when the decision is true, and a publish (one that the presentation
    layer completes) records the new signature and the current time, while
    a skipped turn leaves both as they were. *)
Theorem shouldPublish_decision `{JSRuntime} st snapshot now :
  let clients := sortBy (λ a b, localeCompare (name a) (name b)) (clients snapshot) in
  let signature := signatureForClients clients in
  (∀ candidate, shouldPublish st candidate now = true
     ↔ lastPublishedSignature st ≠ Some candidate
       ∨ (forcedRefreshMs ≤ now - lastPublishedAt st)%Z)
  ∧ (shouldPublish st signature now = true →
     ∃ st', syncStep st snapshot now (Returned ())
            = (st', Published (joinedNamesOf (lastClientIds st) clients))
          ∧ lastPublishedSignature st' = Some signature
          ∧ lastPublishedAt st' = now)
  ∧ (shouldPublish st signature now = false →
     ∀ send, ∃ st', syncStep st snapshot now send = (st', Skipped)
          ∧ lastPublishedSignature st' = lastPublishedSignature st
          ∧ lastPublishedAt st' = lastPublishedAt st).
Proof.
  intros clients signature. split_and!.
  - intros sig. unfold shouldPublish.
    rewrite orb_true_iff, bool_decide_eq_true, Z.leb_le. done.
  - intros Hpub. unfold syncStep. fold clients. fold signature.
    change (shouldPublish (observe st clients now) signature now)
      with (shouldPublish st signature now).
    rewrite Hpub. eauto.
  - intros Hskip send. unfold syncStep. fold clients. fold signature.
    change (shouldPublish (observe st clients now) signature now)
      with (shouldPublish st signature now).
    rewrite Hskip. eauto.
Qed.

(** The heartbeat scenario of the spec: the first poll publishes; the same
    content 10 s later is skipped; the same content 30 s after the publish
    is published again. *)
Example heartbeat_scenario :
  let poll st now := syncStep (H := codeUnitRuntime) st (snapshotOf [alice]) now (Returned ()) in
  let '(st1, turn1) := poll initialState 1000000%Z in
  let '(st2, turn2) := poll st1 1010000%Z in
  let '(st3, turn3) := poll st2 1030000%Z in
  turn1 = Published [] ∧ turn2 = Skipped ∧ turn3 = Published []
  ∧ lastPublishedAt st2 = 1000000%Z ∧ lastPublishedAt st3 = 1030000%Z.
Proof. by vm_compute. Qed.

(** ** The departed members *)

Lemma surviving_idemp currentIds now id entry :
  surviving currentIds now id (surviving currentIds now id entry)
  = surviving currentIds now id entry.
Proof.
  destruct entry as [record|]; [|done]. cbn.
  destruct (_ || _)%bool eqn:Hc; [done|]. cbn. by rewrite Hc.
Qed.

Lemma expireEntry_lookup currentIds now (departed : gmap string RecentlyLeftEntry) key id :
  expireEntry currentIds now departed key !! id
  = if decide (key = id) then surviving currentIds now id (departed !! id)
    else departed !! id.
Proof.
  unfold expireEntry. destruct (decide (key = id)) as [->|Hne].
  - destruct (departed !! id) as [record|] eqn:Hrec; cbn; [|by rewrite Hrec].
    destruct (_ || _)%bool; [by rewrite lookup_delete_eq|done].
  - destruct (departed !! key) as [record|]; [|done].
    destruct (_ || _)%bool; [by rewrite lookup_delete_ne|done].
Qed.

Lemma expire_fold_lookup currentIds now keys (departed : gmap string RecentlyLeftEntry) id :
  foldl (expireEntry currentIds now) departed keys !! id
  = if decide (id ∈ keys) then surviving currentIds now id (departed !! id)
    else departed !! id.
Proof.
  revert departed. induction keys as [|key keys IH]; intros departed; [done|].
  cbn [foldl]. rewrite IH, expireEntry_lookup.
  destruct (decide (key = id)) as [->|Hne].
  - rewrite surviving_idemp. rewrite (decide_True (P := id ∈ id :: keys)) by left.
    by destruct (decide (id ∈ keys)).
  - destruct (decide (id ∈ keys)) as [Hin|Hin].
    + by rewrite decide_True by by right.
    + rewrite decide_False; [done|]. by intros [?|?]%elem_of_cons.
Qed.

Lemma expireDepartures_lookup currentIds now (departed : gmap string RecentlyLeftEntry) id :
  expireDepartures currentIds now departed !! id
  = surviving currentIds now id (departed !! id).
Proof.
  unfold expireDepartures. rewrite expire_fold_lookup.
  destruct (decide (id ∈ (map_to_list departed).*1)) as [Hin|Hin]; [done|].
  destruct (departed !! id) as [record|] eqn:Hrec; [|done].
  destruct Hin. apply list_elem_of_fmap. exists (id, record).
  split; [done|]. by apply elem_of_map_to_list.
Qed.

Lemma noteDeparture_fold_lookup currentIds names now keys
    (departed : gmap string RecentlyLeftEntry) id :
  foldl (noteDeparture currentIds names now) departed keys !! id
  = if decide (id ∈ keys ∧ id ∉ currentIds)
    then Some {| entryName := default "Unknown" (names !! id); leftAt := now |}
    else departed !! id.
Proof.
  revert departed. induction keys as [|key keys IH]; intros departed.
  - cbn. rewrite decide_False; [done|]. by intros [?%elem_of_nil _].
  - cbn [foldl]. rewrite IH. unfold noteDeparture.
    destruct (decide (id ∈ keys ∧ id ∉ currentIds)) as [[Hin Hcur]|Hno].
    + rewrite decide_True; [done|]. split; [by right|done].
    + destruct (decide (key ∈ currentIds)) as [Hkey|Hkey].
      * rewrite decide_False; [done|].
        intros [[->|?]%elem_of_cons ?]; [done|]. by apply Hno.
      * destruct (decide (key = id)) as [->|Hne].
        -- rewrite lookup_insert_eq. rewrite decide_True; [done|]. split; [left|done].
        -- rewrite lookup_insert_ne by done. rewrite decide_False; [done|].
           intros [[->|?]%elem_of_cons ?]; [done|]. by apply Hno.
Qed.

Lemma noteDepartures_lookup previousIds currentIds names now
    (departed : gmap string RecentlyLeftEntry) id :
  noteDepartures previousIds currentIds names now departed !! id
  = match previousIds with
    | Some previous =>
        if decide (id ∈ previous ∧ id ∉ currentIds)
        then Some {| entryName := default "Unknown" (names !! id); leftAt := now |}
        else departed !! id
    | None => departed !! id
    end.
Proof.
  destruct previousIds as [previous|]; [|done]. cbn [noteDepartures].
  rewrite noteDeparture_fold_lookup.
  destruct (decide (id ∈ previous ∧ id ∉ currentIds)) as [[? ?]|Hno].
  - rewrite decide_True; [done|]. by rewrite elem_of_elements.
  - rewrite decide_False; [done|]. by rewrite elem_of_elements.
Qed.

(** The entry of [id] in [recentlyLeft] after the bookkeeping of a poll. *)
Lemma observe_recentlyLeft st clients now id :
  recentlyLeft (observe st clients now) !! id
  = surviving (idsOf clients) now id
      (noteDepartures (lastClientIds st) (idsOf clients)
         (rememberNames (lastKnownNames st) clients) now (recentlyLeft st) !! id).
Proof. cbn [observe recentlyLeft]. apply expireDepartures_lookup. Qed.

(** The rest of a turn of [syncLoop] does not touch [recentlyLeft]. *)
Lemma syncStep_recentlyLeft `{JSRuntime} st snapshot now send :
  recentlyLeft (syncStep st snapshot now send).1
  = recentlyLeft
      (observe st (sortBy (λ a b, localeCompare (name a) (name b)) (clients snapshot))
         now).
Proof.
  unfold syncStep. destruct (shouldPublish _ _ _); [|done]. by destruct send.
Qed.


(** The departure scenario: Alice and Bob are there at the first poll; Alice
    is gone at the second, and is recorded as departed at its time; she is
    still recorded 29 minutes later, and no longer 31 minutes later. *)
Example departure_scenario :
  let poll st clients now :=
    (syncStep (H := codeUnitRuntime) st (snapshotOf clients) now (Returned ())).1 in
  let left := (1000000 + 60000)%Z in
  let st1 := poll initialState [alice; bob] 1000000%Z in
  let st2 := poll st1 [bob] left in
  let st3 := poll st2 [bob] (left + 29 * MINUTE_MS)%Z in
  let st4 := poll st3 [bob] (left + 31 * MINUTE_MS)%Z in
  recentlyLeft st1 !! uid alice = None
  ∧ recentlyLeft st2 !! uid alice = Some {| entryName := "Alice"; leftAt := left |}
  ∧ recentlyLeft st3 !! uid alice = Some {| entryName := "Alice"; leftAt := left |}
  ∧ recentlyLeft st4 !! uid alice = None.
Proof. by vm_compute. Qed.


(** The return scenario: Alice is gone at the second poll and back at the
    third, ten minutes later; she is then no longer recorded as departed,
    and is reported as joined. *)
Example return_scenario :
  let poll st clients now :=
    syncStep (H := codeUnitRuntime) st (snapshotOf clients) now (Returned ()) in
  let st1 := (poll initialState [alice; bob] 1000000%Z).1 in
  let st2 := (poll st1 [bob] 1060000%Z).1 in
  let '(st3, turn3) := poll st2 [bob; alice] (1060000 + 10 * MINUTE_MS)%Z in
  is_Some (recentlyLeft st2 !! uid alice)
  ∧ recentlyLeft st3 !! uid alice = None
  ∧ turn3 = Published ["Alice"].
Proof. vm_compute. split_and!; [by eexists|done|done]. Qed.

(** ** The protocol client *)

Lemma isStatusLine_nonEmpty line : isStatusLine line = true → JS.nonEmpty line = true.
Proof. by destruct line. Qed.

Lemma prefix_includes p s : String.prefix p s = true → JS.includes p s = true.
Proof. intros Hp. destruct s; cbn [JS.includes]; by rewrite Hp. Qed.

(** What [scanLines] adds to the lines: lines that are no status line,
    and, when it stops on one, the status line as the last line. *)
Lemma scanLines_lines fuel buffer lines :
  match scanLines fuel buffer lines with
  | Terminal lines' _ =>
      ∃ body terminal, lines' = lines ++ body ++ [terminal]
        ∧ Forall (λ line, isStatusLine line = false) body
        ∧ isStatusLine terminal = true
  | Starved lines' _ =>
      ∃ body, lines' = lines ++ body ∧ Forall (λ line, isStatusLine line = false) body
  end.
Proof.
  revert buffer lines. induction fuel as [|fuel IH]; intros buffer lines;
    cbn [scanLines]; (destruct (lineBreak buffer) as [idx|];
      [|exists []; by rewrite app_nil_r]);
    set (line := JS.trim (JS.take idx buffer));
    fold (isStatusLine line); destruct (isStatusLine line) eqn:Hstatus.
  - rewrite (isStatusLine_nonEmpty _ Hstatus). by exists [], line.
  - destruct (JS.nonEmpty line).
    + exists [line]. split; [done|]. by repeat constructor.
    + exists []. by rewrite app_nil_r.
  - rewrite (isStatusLine_nonEmpty _ Hstatus). by exists [], line.
  - destruct (JS.nonEmpty line).
    + specialize (IH (JS.drop (consumed buffer idx) buffer) (lines ++ [line])).
      destruct (scanLines _ _ _) as [lines' rest|lines' rest].
      * destruct IH as (body & terminal & -> & Hbody & Hterm).
        exists (line :: body), terminal. rewrite <- !app_assoc.
        split_and!; [done| |done]. by constructor.
      * destruct IH as (body & -> & Hbody).
        exists (line :: body). rewrite <- !app_assoc. split; [done|]. by constructor.
    + apply IH.
Qed.

(** *** The fuel of [scanLines] *)

Lemma indexOf_lt c s i : JS.indexOf c s = Some i → i < String.length s.
Proof.
  revert i. induction s as [|d t IH]; intros i; cbn; [done|].
  destruct (Ascii.eqb d c); [intros [= <-]; lia|].
  destruct (JS.indexOf c t) as [j|]; [|done]. intros [= <-].
  specialize (IH j eq_refl). lia.
Qed.

Lemma lineBreak_lt buffer idx : lineBreak buffer = Some idx → idx < String.length buffer.
Proof.
  unfold lineBreak.
  destruct (JS.indexOf JS.LF buffer) as [n|] eqn:Hn,
           (JS.indexOf JS.CR buffer) as [r|] eqn:Hr; intros [= <-];
    try apply indexOf_lt in Hn; try apply indexOf_lt in Hr; lia.
Qed.

Lemma drop_length n s : String.length (JS.drop n s) = String.length s - n.
Proof.
  revert s. induction n as [|n IH]; intros [|c t]; cbn [JS.drop String.length];
    first [apply IH | lia].
Qed.

Lemma consumed_gt buffer idx : idx < consumed buffer idx.
Proof. unfold consumed. destruct (_ || _)%bool; lia. Qed.

(** With the length of the buffer as fuel, [scanLines] only stops for want
    of data when the buffer holds no line break any more: it is the loop of
    [readUntilErrorLine] up to the next wait. *)
Lemma scanLines_starved fuel buffer lines lines' rest :
  (String.length buffer ≤ fuel)%nat →
  scanLines fuel buffer lines = Starved lines' rest →
  lineBreak rest = None.
Proof.
  revert buffer lines. induction fuel as [|fuel IH]; intros buffer lines Hfuel;
    cbn [scanLines]; destruct (lineBreak buffer) as [idx|] eqn:Hbreak;
    try (by intros [= <- <-]).
  - apply lineBreak_lt in Hbreak. lia.
  - destruct (JS.startsWith _ _); [done|]. apply IH.
    rewrite drop_length. apply lineBreak_lt in Hbreak.
    pose proof (consumed_gt buffer idx). lia.
Qed.

Lemma readLinesFrom_lines events buffer lines :
  match readLinesFrom events buffer lines with
  | (Returned lines', _, _) =>
      ∃ body terminal, lines' = lines ++ body ++ [terminal]
        ∧ Forall (λ line, isStatusLine line = false) body
        ∧ isStatusLine terminal = true
  | (Thrown message, _, _) => message = TIMEOUT_MESSAGE
  end.
Proof.
  revert buffer lines. induction events as [|event events IH]; intros buffer lines;
    cbn [readLinesFrom];
    pose proof (scanLines_lines (String.length buffer) buffer lines) as Hscan;
    destruct (scanLines _ _ _) as [lines' rest|lines' rest]; try done.
  destruct event as [data|]; [|done].
  destruct Hscan as (body & -> & Hbody).
  specialize (IH (rest +:+ data) (lines ++ body)).
  destruct (readLinesFrom _ _ _) as [[[lines'|message] rest'] events']; [|done].
  destruct IH as (body' & terminal & -> & Hbody' & Hterm).
  exists (body ++ body'), terminal. rewrite <- !app_assoc.
  split_and!; [done| |done]. by apply Forall_app.
Qed.

Lemma dropLast_snoc (body : list string) terminal : dropLast (body ++ [terminal]) = body.
Proof.
  unfold dropLast. rewrite length_app. cbn [length].
  replace (length body + 1 - 1) with (length body) by lia.
  by rewrite take_app_length.
Qed.

Lemma find_reverse_snoc (body : list string) terminal :
  isStatusLine terminal = true →
  List.find (JS.includes "error id=") (reverse (body ++ [terminal])) = Some terminal.
Proof.
  intros Hterm. rewrite reverse_app. cbn.
  by rewrite (prefix_includes _ _ Hterm).
Qed.

Example command_success :
  (command (sessionWith [Chunk "clid=1 client_"; Chunk ("type=0" +:+ CRLF +:+ "error id=0 msg=ok" +:+ CRLF)])
     "clientlist").1
  = Returned ["clid=1 client_type=0"].
Proof. by vm_compute. Qed.

Example command_failure :
  (command (sessionWith [Chunk ("error id=1024 msg=invalid\sserverID" +:+ CRLF)])
     "use port=1").1
  = Thrown "TeamSpeak query command failed (1024): invalid serverID".
Proof. by vm_compute. Qed.

Example command_timeout :
  (command (sessionWith [Chunk "clid=1"; Silence]) "clientlist").1
  = Thrown TIMEOUT_MESSAGE.
Proof. by vm_compute. Qed.

(** ** The per-client detail lookups *)

Lemma fillOne_afterLookup `{JSRuntime} query client :
  fillOne query client
  = (afterLookup client (command query ("clientinfo clid=" +:+ clid client)).1,
     (command query ("clientinfo clid=" +:+ clid client)).2).
Proof. unfold fillOne. by destruct (command _ _) as [[infoLines|message] query']. Qed.

(** Every client gets its turn: the [i]-th lookup is issued, and the
    [i]-th client of the result is what that lookup leaves of the [i]-th
    client. *)
Lemma fillConnectedTimes_lookup `{JSRuntime} query clients i client :
  clients !! i = Some client →
  ∃ result, detailLookups query clients !! i = Some result
    ∧ (fillConnectedTimes query clients).1 !! i = Some (afterLookup client result).
Proof.
  revert query i. induction clients as [|first rest IH]; intros query i Hi; [done|].
  cbn [fillConnectedTimes detailLookups]. rewrite fillOne_afterLookup.
  destruct (command query _) as [result query'] eqn:Hcmd. cbn [fst snd].
  specialize (IH query'). destruct (fillConnectedTimes query' rest) as [rest' query''].
  destruct i as [|i].
  - injection Hi as <-. by exists result.
  - cbn in Hi. destruct (IH i Hi) as (r & Hr & Hfilled). by exists r.
Qed.

Lemma fillConnectedTimes_length `{JSRuntime} query clients :
  length (fillConnectedTimes query clients).1 = length clients
  ∧ length (detailLookups query clients) = length clients.
Proof.
  revert query. induction clients as [|first rest IH]; intros query; [done|].
  cbn [fillConnectedTimes detailLookups]. rewrite fillOne_afterLookup.
  destruct (command query _) as [result query']. cbn [fst snd].
  specialize (IH query'). destruct (fillConnectedTimes query' rest) as [rest' query''].
  cbn [fst snd length] in *. destruct IH as [IH1 IH2]. by rewrite IH1, IH2.
Qed.

(** C9: in the detail step of the snapshot build a lookup is issued for
    every client, in order; a client whose lookup fails is left as the
    client-list step built it, a client whose lookup succeeds is refined,
    and the step always returns a client list of the same length; once the
    three list commands have returned, [fetchServerSnapshot] returns the
    snapshot, whatever the lookups do. *)
Theorem fillConnectedTimes_isolated `{JSRuntime} query clients :
  let lookups := detailLookups query clients in
  let filled := (fillConnectedTimes query clients).1 in
  length lookups = length clients
  ∧ length filled = length clients
  ∧ (∀ i client, clients !! i = Some client →
       ∃ result, lookups !! i = Some result
         ∧ filled !! i = Some (afterLookup client result))
  ∧ (∀ i client message, clients !! i = Some client →
       lookups !! i = Some (Thrown message) → filled !! i = Some client)
  ∧ (∀ q1 q2 q3 serverInfoLines channelLines lines,
       command query "serverinfo" = (Returned serverInfoLines, q1) →
       command q1 "channellist -topic" = (Returned channelLines, q2) →
       command q2 "clientlist -uid -away -voice -times" = (Returned lines, q3) →
       (fetchServerSnapshot query).1
       = Returned
           {| serverName := parseServerName serverInfoLines;
              clients :=
                (fillConnectedTimes q3
                   (parseClientList (findClientListPayload lines)
                      (parseChannelList channelLines))).1 |}).
Proof.
  intros lookups filled. subst lookups filled.
  destruct (fillConnectedTimes_length query clients) as [Hfilled Hlookups].
  split_and!; [done|done| | |].
  - intros i client Hi. by apply fillConnectedTimes_lookup.
  - intros i client message Hi Hthrown.
    destruct (fillConnectedTimes_lookup query clients i client Hi)
      as (result & Hresult & ->).
    rewrite Hthrown in Hresult. by injection Hresult as <-.
  - intros q1 q2 q3 serverInfoLines channelLines lines H1 H2 H3.
    unfold fetchServerSnapshot. rewrite H1, H2, H3.
    by destruct (fillConnectedTimes q3 _).
Qed.

Example fillConnectedTimes_sample :
  (λ c, (name c, streaming c, isFinite <$> connectedMs c))
    <$> (fillConnectedTimes (H := codeUnitRuntime) detailSession [streamer; bob; alice]).1
  = [("Sue", false, None); ("Bob", true, None); ("Alice", true, Some true)].
Proof. by vm_compute. Qed.

(** C10: for every client whose detail lookup succeeds, the streaming flag
    of the result is true exactly when the detail record holds
    [client_is_streaming=1] or [client_is_recording=1], whatever the flag
    was after the client-list step, so that a record without both fields
    gives false; the connected duration is the number the detail record
    supplies when that number is finite and not negative, and is the
    duration of the client-list step otherwise; the other fields are
    kept. *)
Theorem fillConnectedTimes_refined `{JSRuntime} query clients i client infoLines :
  clients !! i = Some client →
  detailLookups query clients !! i = Some (Returned infoLines) →
  let info := detailRecord infoLines in
  let ms := detailConnectedMs info in
  ∃ refined,
    (fillConnectedTimes query clients).1 !! i = Some refined
    ∧ (streaming refined = true
       ↔ info !! "client_is_streaming" = Some "1"
         ∨ info !! "client_is_recording" = Some "1")
    ∧ (info !! "client_is_streaming" = None → info !! "client_is_recording" = None →
       streaming refined = false)
    ∧ connectedMs refined
      = (if (isFinite ms && nonNegative ms)%bool then Some ms else connectedMs client)
    ∧ (clid refined, uid refined, name refined, channelId refined, channelName refined,
       inputMuted refined, outputMuted refined, away refined)
      = (clid client, uid client, name client, channelId client, channelName client,
         inputMuted client, outputMuted client, away client).
Proof.
  intros Hi Hlookup info ms.
  destruct (fillConnectedTimes_lookup query clients i client Hi)
    as (result & Hresult & Hfilled).
  rewrite Hlookup in Hresult. injection Hresult as <-.
  exists (refineClient client infoLines). split; [done|].
  cbn [refineClient streaming connectedMs clid uid name channelId channelName
         inputMuted outputMuted away].
  fold (detailRecord infoLines). fold info. unfold fieldIs.
  split_and!; [|intros -> ->; done|done|done].
  rewrite orb_true_iff, !bool_decide_eq_true. done.
Qed.

Lemma fillConnectedTimes_refined_witness :
  ∃ refined,
    (fillConnectedTimes (H := codeUnitRuntime) detailSession [streamer; bob; alice]).1 !! 0
    = Some refined
    ∧ streaming streamer = true ∧ streaming refined = false.
Proof.
  destruct (fillConnectedTimes_refined (H := codeUnitRuntime) detailSession
              [streamer; bob; alice] 0 streamer
              ["client_type=0 client_nickname=Sue"] eq_refl eq_refl)
    as (refined & Hfilled & _ & Hreset & _).
  exists refined. split_and!; [done|done|].
  apply Hreset; by vm_compute.
Defined.

(** * Further properties of the code *)

(** ** The decoder beyond the round trip *)

Lemma string_ind2 (P : string → Prop) :
  P EmptyString → (∀ c, P (String c EmptyString)) →
  (∀ c d u, P u → P (String d u) → P (String c (String d u))) →
  ∀ s, P s.
Proof.
  intros H0 H1 H2 s.
  assert (P s ∧ ∀ c, P (String c s)) as [? _]; [|done].
  induction s as [|d u [IHu IHdu]]; [by split|].
  split; [apply IHdu|]. intros c. by apply H2.
Qed.

Lemma replaceAll2_absent a b r s :
  allChars (λ c, negb (Ascii.eqb c a)) s = true → JS.replaceAll2 a b r s = s.
Proof.
  induction s as [|c t IH]; [done|]. cbn [allChars].
  intros [Hc Ht]%andb_prop. apply negb_true_iff in Hc.
  by rewrite replaceAll2_other, IH.
Qed.

Lemma replaceAll2_cons2 a b r c d u :
  JS.replaceAll2 a b r (String c (String d u))
  = if (Ascii.eqb c a && Ascii.eqb d b)%bool
    then String r (JS.replaceAll2 a b r u)
    else String c (JS.replaceAll2 a b r (String d u)).
Proof. reflexivity. Qed.

Lemma replaceAll2_length a b r s :
  (String.length (JS.replaceAll2 a b r s) ≤ String.length s)%nat.
Proof.
  induction s as [| |c d u IHu IHdu] using string_ind2; [done..|].
  rewrite replaceAll2_cons2. destruct (_ && _)%bool; cbn [String.length] in *; lia.
Qed.

(** X1: a value without a backslash is decoded to itself, and no value gets
    longer by decoding. *)
Theorem decodeQueryValue_plain value :
  (backslashFree value = true → decodeQueryValue value = value)
  ∧ (String.length (decodeQueryValue value) ≤ String.length value)%nat.
Proof.
  split.
  - intros Hfree. unfold decodeQueryValue.
    by repeat rewrite (replaceAll2_absent JS.BACKSLASH _ _ value) by exact Hfree.
  - unfold decodeQueryValue.
    repeat (etrans; [apply replaceAll2_length|]). done.
Qed.

(** One substitution undoes one row of the table on a text without
    backslash, whatever its other characters. *)
Lemma replaceAll2_pass_plain k x y table s :
  drop k escapeTable = (x, y) :: table →
  backslashFree s = true →
  JS.replaceAll2 JS.BACKSLASH y x (encodeWith ((x, y) :: table) s)
  = encodeWith table s.
Proof.
  intros Hk. induction s as [|c t IH]; intros Hs; [reflexivity|].
  unfold backslashFree in Hs. cbn [allChars] in Hs.
  apply andb_prop in Hs as [Hc Ht]. specialize (IH Ht).
  apply negb_true_iff, Ascii.eqb_neq in Hc.
  destruct k as [|[|[|[|[|[|[|k]]]]]]]; cbn in Hk;
    try (destruct k; discriminate Hk); injection Hk as <- <- <-;
    cbn [encodeWith escapeLetter];
    repeat match goal with
      | |- context [Ascii.eqb c ?d] =>
          destruct (Ascii.eqb_spec c d) as [->|?]; [try contradiction|]
      end;
    repeat first
      [ rewrite replaceAll2_hit
      | rewrite replaceAll2_other by (reflexivity || by apply Ascii.eqb_neq)
      | rewrite replaceAll2_miss by reflexivity ];
    by rewrite IH.
Qed.

(** X2: for every text without a backslash, whatever its other characters,
    decoding the encoding gives the text back. *)
Theorem decodeQueryValue_encodeQueryValue_plain s :
  backslashFree s = true → decodeQueryValue (encodeQueryValue s) = s.
Proof.
  intros Hs. unfold decodeQueryValue. rewrite <- encodeWith_full.
  unfold escapeTable.
  rewrite (replaceAll2_pass_plain 0) by done.
  rewrite (replaceAll2_pass_plain 1) by done.
  rewrite (replaceAll2_pass_plain 2) by done.
  rewrite (replaceAll2_pass_plain 3) by done.
  rewrite (replaceAll2_pass_plain 4) by done.
  rewrite (replaceAll2_pass_plain 5) by done.
  rewrite (replaceAll2_pass_plain 6) by done.
  apply encodeWith_none.
Qed.

Lemma decodeQueryValue_encodeQueryValue_plain_witness :
  decodeQueryValue (encodeQueryValue "Music room | AFK/sleep") = "Music room | AFK/sleep".
Proof. apply decodeQueryValue_encodeQueryValue_plain. reflexivity. Defined.

(** ** Records *)

Lemma allChars_app P (x y : string) :
  allChars P (x +:+ y) = (allChars P x && allChars P y)%bool.
Proof.
  induction x as [|c x IH]; [done|].
  rewrite string_app_cons. cbn [allChars]. by rewrite IH, andb_assoc.
Qed.

Lemma indexOf_lacks c s : lacks c s = true → JS.indexOf c s = None.
Proof.
  induction s as [|d t IH]; [done|]. unfold lacks. cbn [allChars JS.indexOf].
  intros [Hd Ht]%andb_prop. apply negb_true_iff in Hd. rewrite Hd.
  by rewrite (IH Ht).
Qed.

Lemma indexOf_app c (k v : string) :
  lacks c k = true → JS.indexOf c (k +:+ String c v) = Some (String.length k).
Proof.
  induction k as [|d k IH].
  - intros _. rewrite string_app_nil_l. cbn [JS.indexOf]. by rewrite Ascii.eqb_refl.
  - unfold lacks. cbn [allChars]. intros [Hd Hk]%andb_prop.
    apply negb_true_iff in Hd. rewrite string_app_cons. cbn [JS.indexOf String.length].
    by rewrite Hd, (IH Hk).
Qed.

Lemma take_app_length (k x : string) : JS.take (String.length k) (k +:+ x) = k.
Proof.
  induction k as [|d k IH]; [by destruct x|].
  rewrite string_app_cons. cbn [String.length JS.take]. by rewrite IH.
Qed.

Lemma drop_app_length (k x : string) : JS.drop (String.length k) (k +:+ x) = x.
Proof.
  induction k as [|d k IH]; [by destruct x|].
  rewrite string_app_cons. cbn [String.length JS.drop]. by rewrite IH.
Qed.

Lemma parsePair_empty (out : gmap string string) : parsePair out EmptyString = out.
Proof. done. Qed.

Lemma parsePairs_app (a b : string) :
  parsePairs (a +:+ String " " b) = foldl parsePair (parsePairs a) (JS.split " " b).
Proof. unfold parsePairs. by rewrite split_app, foldl_app. Qed.

(** X3: leading spaces, trailing spaces and repeated spaces do not change
    the record [parsePairs] builds. *)
Theorem parsePairs_spaces record :
  parsePairs (" " +:+ record) = parsePairs record
  ∧ parsePairs (record +:+ " ") = parsePairs record
  ∧ ∀ rest, parsePairs (record +:+ "  " +:+ rest) = parsePairs (record +:+ " " +:+ rest).
Proof.
  split_and!.
  - unfold parsePairs. rewrite string_app_cons, string_app_nil_l.
    cbn [JS.split]. by rewrite Ascii.eqb_refl.
  - by rewrite parsePairs_app.
  - intros rest. rewrite !string_app_cons, !string_app_nil_l, !parsePairs_app.
    cbn [JS.split]. by rewrite Ascii.eqb_refl.
Qed.

Lemma assignField_insert (key value : string) (out : gmap string string) :
  key ≠ PROTO → assignField key value out = <[key := value]> out.
Proof.
  intros Hproto. unfold assignField.
  by destruct (String.eqb_spec key PROTO).
Qed.

(** X4: a pair appended to a record line, under a key other than
    [__proto__], sets its key and leaves the other keys alone: [key=value]
    binds the key to the decoded value, overriding an earlier pair for it,
    and a key without [=] is bound to the empty string. *)
Theorem parsePairs_append record key value :
  key ≠ PROTO →
  lacks " " key = true → lacks "=" key = true → lacks " " value = true →
  parsePairs (record +:+ " " +:+ key +:+ "=" +:+ value)
  = <[key := decodeQueryValue value]> (parsePairs record)
  ∧ (JS.nonEmpty key = true →
     parsePairs (record +:+ " " +:+ key) = <[key := EmptyString]> (parsePairs record)).
Proof.
  intros Hproto Hkey Heq Hvalue. split.
  - rewrite string_app_cons, string_app_nil_l, parsePairs_app.
    rewrite string_app_cons, string_app_nil_l.
    rewrite split_free.
    2:{ fold (lacks " " (key +:+ String "=" value)). unfold lacks.
        rewrite allChars_app. cbn [allChars].
        unfold lacks in Hkey, Hvalue. by rewrite Hkey, Hvalue. }
    cbn [foldl]. unfold parsePair.
    assert (JS.nonEmpty (key +:+ String "=" value) = true) as -> by by destruct key.
    rewrite indexOf_app by done. rewrite take_app_length.
    change (S (String.length key)) with (String.length (String "=" key)).
    replace (JS.drop (String.length (String "=" key)) (key +:+ String "=" value))
      with value; [by apply assignField_insert|].
    cbn [String.length]. clear. induction key as [|c key IH]; [done|].
    by rewrite string_app_cons.
  - intros Hne. rewrite string_app_cons, string_app_nil_l, parsePairs_app.
    rewrite split_free by exact Hkey. cbn [foldl]. unfold parsePair.
    rewrite Hne, indexOf_lacks by done. by apply assignField_insert.
Qed.

Lemma parsePairs_append_witness :
  parsePairs ("clid=1 client_away=0" +:+ " " +:+ "client_away" +:+ "=" +:+ "1")
  = <["client_away" := decodeQueryValue "1"]> (parsePairs "clid=1 client_away=0").
Proof. by apply (parsePairs_append "clid=1 client_away=0" "client_away" "1"). Defined.

(** A pair under the key [__proto__] makes no field. *)
Example parsePairs_proto :
  parsePairs "clid=1 __proto__=x" = parsePairs "clid=1"
  ∧ parsePairs "clid=1 __proto__" = parsePairs "clid=1".
Proof. by vm_compute. Qed.

(** ** The lists of a snapshot *)

Lemma foldl_invariant {A B} (P : A → Prop) (f : A → B → A) (l : list B) (a : A) :
  P a → (∀ a b, P a → P (f a b)) → P (foldl f a l).
Proof. revert a. induction l as [|b l IH]; intros a Ha Hf; [done|]. cbn. auto. Qed.

Lemma parseChannelList_nonEmpty `{JSRuntime} lines cid channel_name :
  parseChannelList lines !! cid = Some channel_name →
  JS.nonEmpty cid = true ∧ JS.nonEmpty channel_name = true.
Proof.
  unfold parseChannelList. destruct (JS.nonEmpty _); [|done].
  revert cid channel_name.
  apply (foldl_invariant
           (λ m : gmap string string,
              ∀ k v, m !! k = Some v → JS.nonEmpty k = true ∧ JS.nonEmpty v = true));
    [done|].
  intros m raw Hm k v. unfold addChannel.
  destruct (parsePairs raw !! "cid") as [c|]; [|by apply Hm].
  destruct (parsePairs raw !! "channel_name") as [n|]; [|by apply Hm].
  destruct (JS.nonEmpty c) eqn:Hc, (JS.nonEmpty n) eqn:Hn; cbn [andb]; try apply Hm.
  destruct (decide (c = k)) as [->|Hne].
  - rewrite lookup_insert_eq. by intros [= <-].
  - rewrite lookup_insert_ne by done. apply Hm.
Qed.

Lemma parseClientList_elem `{JSRuntime} payloadLine channelNameById client :
  client ∈ parseClientList payloadLine channelNameById →
  hasIdentity client ∧ ∃ record, client = toActiveClient channelNameById record.
Proof.
  unfold parseClientList. destruct (_ || _)%bool; [by intros ?%elem_of_nil|].
  intros [Hid Hin]%list_elem_of_filter.
  apply list_elem_of_fmap in Hin as (record & -> & _). eauto.
Qed.

Lemma toActiveClient_channelName `{JSRuntime} lines record :
  let client := toActiveClient (parseChannelList lines) record in
  JS.nonEmpty (channelName client) = true
  ∧ (channelName client = "Unknown channel"
     ∨ parseChannelList lines !! channelId client = Some (channelName client)).
Proof.
  cbn [toActiveClient channelName channelId].
  destruct (parseChannelList lines !! _) as [n|] eqn:Hn; simpl; [|by auto].
  destruct (parseChannelList_nonEmpty _ _ _ Hn) as [_ Hne]. auto.
Qed.

(** X5: the channel map of [parseChannelList] binds non-empty ids to
    non-empty names only (a channel without a name is left out), it is empty
    when no line of the reply is a channel list, and every client parsed
    against it has a non-empty channel name: the name of its channel, or
    "Unknown channel". *)
Theorem parseChannelList_names `{JSRuntime} lines :
  (∀ cid channel_name, parseChannelList lines !! cid = Some channel_name →
     JS.nonEmpty cid ∧ JS.nonEmpty channel_name)
  ∧ ((∀ line, line ∈ lines →
        ¬ (JS.includes "cid=" line ∧ JS.includes "channel_name=" line)) →
     parseChannelList lines = ∅)
  ∧ (∀ payloadLine client,
       client ∈ parseClientList payloadLine (parseChannelList lines) →
       JS.nonEmpty (channelName client)
       ∧ (channelName client = "Unknown channel"
          ∨ parseChannelList lines !! channelId client = Some (channelName client))).
Proof.
  split_and!.
  - intros cid channel_name Hm.
    destruct (parseChannelList_nonEmpty _ _ _ Hm) as [-> ->]. done.
  - intros Hnone. unfold parseChannelList.
    destruct (List.find _ lines) as [line|] eqn:Hfind; [|done].
    apply find_some in Hfind as [Hin Hline]. destruct (Hnone line).
    + by apply list_elem_of_In.
    + apply andb_prop in Hline as [-> ->]. done.
  - intros payloadLine client Hin.
    apply parseClientList_elem in Hin as [_ (record & ->)].
    destruct (toActiveClient_channelName lines record) as [-> ?]. done.
Qed.

(** X6: [findClientListPayload] gives the first line of the reply that
    holds both [clid=] and [client_type=], and the empty line when there is
    none, in which case the client list is empty. *)
Theorem findClientListPayload_first `{JSRuntime} lines :
  let isList line := JS.includes "clid=" line ∧ JS.includes "client_type=" line in
  (∀ before line after, lines = before ++ line :: after →
     isList line → (∀ other, other ∈ before → ¬ isList other) →
     findClientListPayload lines = line)
  ∧ ((∀ line, line ∈ lines → ¬ isList line) →
     findClientListPayload lines = EmptyString
     ∧ ∀ channelNameById,
         parseClientList (findClientListPayload lines) channelNameById = []).
Proof.
  intros isList. subst isList. cbn beta.
  assert (∀ line, JS.includes "clid=" line ∧ JS.includes "client_type=" line
            ↔ (JS.includes "clid=" line && JS.includes "client_type=" line)%bool = true)
    as Hbool.
  { intros line. rewrite andb_true_iff.
    destruct (JS.includes "clid=" line), (JS.includes "client_type=" line);
      cbn; intuition congruence. }
  split.
  - intros before line after -> Hline Hbefore. unfold findClientListPayload.
    induction before as [|other before IH]; cbn [app List.find].
    + apply Hbool in Hline. by rewrite Hline.
    + destruct (_ && _)%bool eqn:Hother.
      * destruct (Hbefore other); [by left|]. by apply Hbool.
      * apply IH. intros o Ho. apply Hbefore. by right.
  - intros Hnone.
    assert (findClientListPayload lines = EmptyString) as ->; [|done].
    unfold findClientListPayload.
    destruct (List.find _ lines) as [line|] eqn:Hfind; [|done].
    apply find_some in Hfind as [Hin Hline]. destruct (Hnone line).
    + by apply list_elem_of_In.
    + by apply Hbool.
Qed.

(** ** The detail lookups and the snapshot *)

Lemma afterLookup_identity `{JSRuntime} client result :
  identityOf (afterLookup client result) = identityOf client.
Proof. by destruct result. Qed.

Lemma afterLookup_finite `{JSRuntime} client result :
  (∀ n, connectedMs client = Some n → isFinite n = true) →
  ∀ n, connectedMs (afterLookup client result) = Some n → isFinite n = true.
Proof.
  intros Hclient n. destruct result as [infoLines|message]; [|apply Hclient].
  cbn [afterLookup refineClient connectedMs].
  destruct (_ && _)%bool eqn:Hms; [|apply Hclient].
  intros [= <-]. by apply andb_prop in Hms as [? _].
Qed.

(** What a lookup keeps of every client, the detail step keeps of the
    list. *)
Lemma fillConnectedTimes_Forall `{JSRuntime} (P : ActiveClient → Prop) query clients :
  (∀ client result, P client → P (afterLookup client result)) →
  Forall P clients → Forall P (fillConnectedTimes query clients).1.
Proof.
  intros Hkeep Hall. revert query. induction Hall as [|first rest Hfirst Hrest IH];
    intros query; [by constructor|].
  cbn [fillConnectedTimes]. rewrite fillOne_afterLookup.
  specialize (IH (command query ("clientinfo clid=" +:+ clid first)).2).
  destruct (fillConnectedTimes _ rest) as [rest' query'']. cbn [fst] in *.
  constructor; [by apply Hkeep|done].
Qed.

Lemma wellFormedClient_afterLookup `{JSRuntime} client result :
  wellFormedClient client → wellFormedClient (afterLookup client result).
Proof.
  intros (Hclid & Huid & Hname & Hchannel & Hms).
  pose proof (afterLookup_identity client result) as Hid.
  unfold wellFormedClient. injection Hid as -> -> -> _ -> _ _ _.
  split_and!; try done. by apply afterLookup_finite.
Qed.

(** X7: every client of a snapshot that [fetchServerSnapshot] returns has a
    non-empty id, unique id, name and channel name, and a connected time
    that is null or a finite number. *)
Theorem fetchServerSnapshot_wellFormed `{JSRuntime} query :
  match (fetchServerSnapshot query).1 with
  | Returned snapshot => Forall wellFormedClient (clients snapshot)
  | Thrown _ => True
  end.
Proof.
  unfold fetchServerSnapshot.
  destruct (command query _) as [[serverInfoLines|?] q1]; [|done].
  destruct (command q1 _) as [[channelLines|?] q2]; [|done].
  destruct (command q2 _) as [[lines|?] q3]; [|done].
  pose proof (fillConnectedTimes_Forall wellFormedClient q3
                (parseClientList (findClientListPayload lines)
                   (parseChannelList channelLines))) as Hfill.
  destruct (fillConnectedTimes q3 _) as [filled q4]. cbn [fst clients] in *.
  apply Hfill; [apply @wellFormedClient_afterLookup|].
  apply Forall_forall. intros client Hin.
  apply parseClientList_elem in Hin as [(Hname & Hclid & Huid) (record & ->)].
  destruct (toActiveClient_channelName channelLines record) as [Hchannel _].
  split_and!; [done|done|done|by rewrite Hchannel|].
  cbn [toActiveClient connectedMs]. intros n.
  destruct (JS.nonEmpty (default EmptyString (record !! "client_connected_time")));
    [|done].
  destruct (isFinite (Number _)) eqn:Hfin; [|done].
  by intros [= <-].
Qed.

Example fetchServerSnapshot_sample :
  (λ snapshot,
     (serverName snapshot,
      (λ c, (name c, channelName c, isFinite <$> connectedMs c)) <$> clients snapshot))
    <$> match (fetchServerSnapshot (H := codeUnitRuntime) pollSession).1 with
        | Returned snapshot => Some snapshot
        | Thrown _ => None
        end
  = Some ("My Server", [("Alice", "Lobby", Some true)]).
Proof. by vm_compute. Qed.

Lemma command_written query commandText :
  written (command query commandText).2 = (commandText +:+ CRLF) :: written query.
Proof.
  unfold command, readUntilErrorLine.
  destruct (readLinesFrom _ _ _) as [[[lines|message] rest] events]; [|done].
  by destruct (bool_decide _).
Qed.

(** X8: the detail step writes exactly one [clientinfo] command per client
    to the stream, in the order of the list, whatever the lookups return or
    throw. *)
Theorem fillConnectedTimes_written `{JSRuntime} query clients :
  written (fillConnectedTimes query clients).2
  = reverse (lookupLine <$> clients) ++ written query.
Proof.
  revert query. induction clients as [|first rest IH]; intros query; [done|].
  cbn [fillConnectedTimes]. rewrite fillOne_afterLookup.
  specialize (IH (command query ("clientinfo clid=" +:+ clid first)).2).
  destruct (fillConnectedTimes _ rest) as [rest' query'']. cbn [snd] in *.
  rewrite IH, command_written, fmap_cons, reverse_cons, <- app_assoc.
  unfold lookupLine. by rewrite string_app_assoc.
Qed.

(** X9: the detail step keeps, for every client and in order, the id, the
    unique id, the name, the channel and the mute and away flags, whatever
    the lookups return or throw; so the set of unique ids of the snapshot is
    the one of the client list. *)
Theorem fillConnectedTimes_identity `{JSRuntime} query clients :
  identityOf <$> (fillConnectedTimes query clients).1 = identityOf <$> clients
  ∧ idsOf (fillConnectedTimes query clients).1 = idsOf clients.
Proof.
  assert (identityOf <$> (fillConnectedTimes query clients).1 = identityOf <$> clients)
    as Hid.
  { revert query. induction clients as [|first rest IH]; intros query; [done|].
    cbn [fillConnectedTimes]. rewrite fillOne_afterLookup.
    specialize (IH (command query ("clientinfo clid=" +:+ clid first)).2).
    destruct (fillConnectedTimes _ rest) as [rest' query'']. cbn [fst snd] in *.
    by rewrite !fmap_cons, IH, afterLookup_identity. }
  split; [done|]. unfold idsOf. f_equal.
  assert (∀ l : list ActiveClient, uid <$> l = (λ i, i.1.1.1.1.1.1.2) <$> (identityOf <$> l))
    as Huid by (intros l; by rewrite <- list_fmap_compose).
  by rewrite !Huid, Hid.
Qed.

(** ** The signature and the turns of the loop *)

Lemma string_app_empty (x y : string) : x +:+ y = EmptyString → x = EmptyString.
Proof. by destruct x. Qed.

(** X10: the signature is the empty string exactly when the client list is
    empty. *)
Theorem signatureForClients_empty `{JSRuntime} clients :
  signatureForClients clients = EmptyString ↔ clients = [].
Proof.
  split; [|by intros ->].
  destruct clients as [|client rest]; [done|]. intros Hsig. exfalso.
  unfold signatureForClients in Hsig.
  pose proof (sortBy_Permutation localeCompare (clientRow <$> client :: rest)) as Hperm.
  destruct (sortBy localeCompare (clientRow <$> client :: rest)) as [|row rows].
  { by apply Permutation_nil_cons in Hperm. }
  assert (row ∈ clientRow <$> client :: rest) as Hrow by (rewrite <- Hperm; left).
  apply list_elem_of_fmap in Hrow as (c & -> & _).
  rewrite join_cons_rowsAfter in Hsig. apply string_app_empty in Hsig.
  rewrite clientRow_prefix_suffix in Hsig.
  by destruct (identityPrefix c).
Qed.

Lemma idsOf_sorted `{JSRuntime} (clients : list ActiveClient) :
  idsOf (sortBy (λ a b, localeCompare (name a) (name b)) clients) = idsOf clients.
Proof.
  unfold idsOf. apply list_to_set_perm_L. by rewrite sortBy_Permutation.
Qed.

Lemma expireDepartures_empty currentIds now : expireDepartures currentIds now ∅ = ∅.
Proof. unfold expireDepartures. by rewrite map_to_list_empty. Qed.

(** X11: the first turn after start-up publishes whatever the snapshot is,
    reports no join, records no departure, and remembers the unique ids of
    the snapshot as the members. *)
Theorem syncStep_first `{JSRuntime} snapshot now :
  ∃ st, syncStep initialState snapshot now (Returned ()) = (st, Published [])
    ∧ lastPublishedAt st = now
    ∧ lastClientIds st = Some (idsOf (clients snapshot))
    ∧ recentlyLeft st = ∅.
Proof.
  unfold syncStep. set (sorted := sortBy _ (clients snapshot)).
  assert (shouldPublish (observe initialState sorted now)
            (signatureForClients sorted) now = true) as ->.
  { unfold shouldPublish. apply orb_true_iff. left. by apply bool_decide_eq_true. }
  eexists. split; [done|].
  cbn [lastPublishedAt lastClientIds recentlyLeft observe initialState noteDepartures].
  split_and!; [done| |apply expireDepartures_empty].
  subst sorted. by rewrite idsOf_sorted.
Qed.

(** X12: a turn whose publish fails leaves the last published signature and
    time and the remembered members as they were, so that the next turn on
    the same snapshot, at the same time or later, tries to publish again. *)
Theorem syncStep_failed_retry `{JSRuntime} st snapshot now reason :
  (syncStep st snapshot now (Thrown reason)).2 = Failed reason →
  let st1 := (syncStep st snapshot now (Thrown reason)).1 in
  lastPublishedSignature st1 = lastPublishedSignature st
  ∧ lastPublishedAt st1 = lastPublishedAt st
  ∧ lastClientIds st1 = lastClientIds st
  ∧ ∀ later send, (now ≤ later)%Z → (syncStep st1 snapshot later send).2 ≠ Skipped.
Proof.
  unfold syncStep.
  set (sorted := sortBy _ (clients snapshot)).
  set (signature := signatureForClients sorted).
  change (shouldPublish (observe st sorted now) signature now)
    with (shouldPublish st signature now).
  destruct (shouldPublish st signature now) eqn:Hpub; [|done]. intros _. cbn [fst].
  split_and!; [done..|]. intros later send Hlater.
  assert (shouldPublish (observe (observe st sorted now) sorted later) signature later
          = true) as ->; [|by destruct send].
  unfold shouldPublish in *. cbn [observe lastPublishedSignature lastPublishedAt].
  apply orb_true_iff in Hpub as [Hsig|Htime]; apply orb_true_iff; [by left|right].
  apply Z.leb_le in Htime. apply Z.leb_le. lia.
Qed.

Lemma syncStep_failed_retry_witness :
  (syncStep (H := codeUnitRuntime)
     (syncStep (H := codeUnitRuntime) afterFirstPoll (snapshotOf [bob]) 1030000
        (Thrown "Missing Access")).1
     (snapshotOf [bob]) 1060000 (Returned ())).2 ≠ Skipped.
Proof.
  apply (syncStep_failed_retry (H := codeUnitRuntime) afterFirstPoll (snapshotOf [bob])
           1030000 "Missing Access"); [by vm_compute|lia].
Defined.

(** *** The remembered names *)

Lemma idsOf_cons client clients : idsOf (client :: clients) = {[uid client]} ∪ idsOf clients.
Proof. done. Qed.

Lemma rememberNames_other names clients id :
  id ∉ idsOf clients → rememberNames names clients !! id = names !! id.
Proof.
  revert names. induction clients as [|client rest IH]; intros names Hid; [done|].
  rewrite idsOf_cons in Hid. apply not_elem_of_union in Hid as [Hne Hrest].
  apply not_elem_of_singleton in Hne. cbn [rememberNames foldl].
  unfold rememberNames in IH. rewrite IH by done.
  by apply lookup_insert_ne.
Qed.

Lemma rememberNames_mono names clients id :
  is_Some (names !! id) → is_Some (rememberNames names clients !! id).
Proof.
  revert names. induction clients as [|client rest IH]; intros names Hid; [done|].
  cbn [rememberNames foldl]. apply IH.
  destruct (decide (uid client = id)) as [->|Hne].
  - rewrite lookup_insert_eq. by eexists.
  - by rewrite lookup_insert_ne.
Qed.

Lemma rememberNames_known names clients id :
  id ∈ idsOf clients → is_Some (rememberNames names clients !! id).
Proof.
  revert names. induction clients as [|client rest IH]; intros names Hid.
  - by apply elem_of_empty in Hid.
  - rewrite idsOf_cons in Hid. cbn [rememberNames foldl].
    destruct (decide (id ∈ idsOf rest)) as [Hrest|Hrest]; [by apply IH|].
    apply elem_of_union in Hid as [->%elem_of_singleton|?]; [|done].
    apply rememberNames_mono. rewrite lookup_insert_eq. by eexists.
Qed.

Lemma namesKnown_syncStep `{JSRuntime} st snapshot now send :
  namesKnown st → namesKnown (syncStep st snapshot now send).1.
Proof.
  intros Hknown previous id. unfold syncStep.
  set (sorted := sortBy _ (clients snapshot)).
  destruct (shouldPublish _ _ _); [destruct send as [[]|reason]|];
    cbn [fst lastClientIds lastKnownNames observe].
  - intros [= <-]. apply rememberNames_known.
  - intros Hprev Hid. apply rememberNames_mono. by eapply Hknown.
  - intros [= <-]. apply rememberNames_known.
Qed.

(** X13: every member of the previous poll has a remembered name: this
    holds at start-up and is kept by every turn, whether it publishes, skips
    or fails. *)
Theorem namesKnown_invariant `{JSRuntime} :
  namesKnown initialState
  ∧ ∀ st snapshot now send,
      namesKnown st → namesKnown (syncStep st snapshot now send).1.
Proof. split; [done|]. intros st snapshot now send. apply namesKnown_syncStep. Qed.

(** X14: when every member of the previous poll has a remembered name, a
    member of the previous poll who is missing from the current one is
    recorded as departed at the time of the poll under the name last seen
    for it, whatever was recorded for it before; the fallback name is not
    used. *)
Theorem observe_departure st clients now previous id :
  namesKnown st → lastClientIds st = Some previous →
  id ∈ previous → id ∉ idsOf clients →
  ∃ known, lastKnownNames st !! id = Some known
    ∧ recentlyLeft (observe st clients now) !! id
      = Some {| entryName := known; leftAt := now |}.
Proof.
  intros Hknown Hprev Hin Hout.
  destruct (Hknown previous id Hprev Hin) as [known Hname]. exists known.
  split; [done|].
  rewrite observe_recentlyLeft, noteDepartures_lookup, Hprev.
  rewrite decide_True by done. rewrite rememberNames_other, Hname by done.
  cbn [default surviving leftAt]. rewrite bool_decide_eq_false_2 by done.
  rewrite Z.sub_diag. done.
Qed.

Lemma afterFirstPoll_namesKnown : namesKnown afterFirstPoll.
Proof.
  intros previous id [= <-] Hid. apply elem_of_list_to_set in Hid.
  cbn in Hid. apply elem_of_cons in Hid as [->|Hid]; [vm_compute; by eexists|].
  apply list_elem_of_singleton in Hid as ->. vm_compute. by eexists.
Qed.

Lemma observe_departure_witness :
  recentlyLeft (observe afterFirstPoll [bob] 1060000) !! "uidA="
  = Some {| entryName := "Alice"; leftAt := 1060000 |}.
Proof.
  destruct (observe_departure afterFirstPoll [bob] 1060000 (idsOf [alice; bob]) "uidA="
              afterFirstPoll_namesKnown eq_refl)
    as (known & Hknown & Hentry).
  - apply elem_of_list_to_set. left.
  - intros Hin. apply elem_of_list_to_set, list_elem_of_singleton in Hin.
    discriminate Hin.
  - injection Hknown as <-. exact Hentry.
Defined.

(** X15: a turn on a snapshot with the unique ids of the previous poll
    reports no join and records no departure: what is recorded as departed
    afterwards was recorded before. *)
Theorem syncStep_same_members `{JSRuntime} st snapshot now send :
  lastClientIds st = Some (idsOf (clients snapshot)) →
  let result := syncStep st snapshot now send in
  (result.2 = Published [] ∨ result.2 = Skipped ∨ ∃ reason, result.2 = Failed reason)
  ∧ ∀ id entry, recentlyLeft result.1 !! id = Some entry →
      recentlyLeft st !! id = Some entry.
Proof.
  intros Hprev result. subst result. split.
  - unfold syncStep. set (sorted := sortBy _ (clients snapshot)).
    assert (joinedNamesOf (lastClientIds st) sorted = []) as ->.
    { rewrite Hprev. cbn [joinedNamesOf]. rewrite filter_none; [done|].
      intros client Hclient Hnot. apply Hnot.
      rewrite <- (idsOf_sorted (clients snapshot)). fold sorted.
      unfold idsOf. apply elem_of_list_to_set, list_elem_of_fmap. eauto. }
    destruct (shouldPublish _ _ _); [destruct send|]; cbn [snd]; eauto.
  - intros id entry. rewrite syncStep_recentlyLeft, observe_recentlyLeft.
    rewrite noteDepartures_lookup, Hprev, idsOf_sorted.
    rewrite decide_False by (by intros [? ?]).
    destruct (recentlyLeft st !! id) as [record|]; [|done]. cbn [surviving].
    destruct (_ || _)%bool; [done|]. done.
Qed.

Lemma syncStep_same_members_witness :
  let result :=
    syncStep (H := codeUnitRuntime) afterFirstPoll (snapshotOf [alice; bob]) 1010000
      (Returned ()) in
  (result.2 = Published [] ∨ result.2 = Skipped ∨ ∃ reason, result.2 = Failed reason)
  ∧ ∀ id entry, recentlyLeft result.1 !! id = Some entry →
      recentlyLeft afterFirstPoll !! id = Some entry.
Proof.
  exact (syncStep_same_members (H := codeUnitRuntime) afterFirstPoll
           (snapshotOf [alice; bob]) 1010000 (Returned ()) eq_refl).
Defined.

(** *** The session across turns *)

Lemma fetchServerSnapshotFrom_session `{JSRuntime} config session connect snapshot :
  (fetchServerSnapshotFrom config session connect).1 = Returned snapshot →
  is_Some (fetchServerSnapshotFrom config session connect).2.
Proof.
  unfold fetchServerSnapshotFrom. destruct session as [query|].
  - destruct (fetchServerSnapshot query). by eexists.
  - destruct connect as [query|message]; [|done].
    destruct (command query _) as [[lines|message] query']; [|done].
    destruct (fetchServerSnapshot query'). by eexists.
Qed.

(** X16: a turn that fails, for whatever reason, forgets the session, and a
    turn that does not fail keeps one; a turn whose snapshot cannot be
    fetched fails with the reason of the fetch and leaves the tracker as it
    was. *)
Theorem syncTurn_session `{JSRuntime} config ls connect now send :
  let result := syncTurn config ls connect now send in
  (∀ reason, result.2 = Failed reason → queryClient result.1 = None)
  ∧ ((∀ reason, result.2 ≠ Failed reason) → is_Some (queryClient result.1))
  ∧ (∀ reason,
       (fetchServerSnapshotFrom config (queryClient ls) connect).1 = Thrown reason →
       result = ({| tracker := tracker ls; queryClient := None |}, Failed reason)).
Proof.
  intros result. subst result. unfold syncTurn.
  pose proof (fetchServerSnapshotFrom_session config (queryClient ls) connect) as Hsession.
  destruct (fetchServerSnapshotFrom _ _ _) as [[snapshot|reason] session]; cbn [fst snd] in *.
  - destruct (Hsession snapshot eq_refl) as [query ->].
    destruct (syncStep _ _ _ _) as [st [joined| |reason]]; cbn [fst snd queryClient];
      split_and!; try done; try (by eexists).
    intros Hnot. by destruct (Hnot reason).
  - split_and!; [done| |by intros ? [= <-]].
    intros Hnot. by destruct (Hnot reason).
Qed.

Lemma fillConnectedTimes_written_more `{JSRuntime} query clients :
  ∃ later, written (fillConnectedTimes query clients).2 = later ++ written query.
Proof.
  revert query. induction clients as [|first rest IH]; intros query; [by exists []|].
  cbn [fillConnectedTimes]. rewrite fillOne_afterLookup.
  destruct (IH (command query ("clientinfo clid=" +:+ clid first)).2) as [later Hlater].
  destruct (fillConnectedTimes _ rest) as [rest' query'']. cbn [snd] in *.
  rewrite Hlater, command_written. eexists (later ++ [_]). by rewrite <- app_assoc.
Qed.

Lemma fetchServerSnapshot_written_more `{JSRuntime} query :
  ∃ later, written (fetchServerSnapshot query).2 = later ++ written query.
Proof.
  unfold fetchServerSnapshot.
  pose proof (command_written query "serverinfo") as H1.
  destruct (command query _) as [[serverInfoLines|?] q1]; cbn [snd] in *;
    [|rewrite H1; by eexists [_]].
  pose proof (command_written q1 "channellist -topic") as H2.
  destruct (command q1 _) as [[channelLines|?] q2]; cbn [snd] in *;
    [|rewrite H2, H1; by eexists [_; _]].
  pose proof (command_written q2 "clientlist -uid -away -voice -times") as H3.
  destruct (command q2 _) as [[lines|?] q3]; cbn [snd] in *;
    [|rewrite H3, H2, H1; by eexists [_; _; _]].
  destruct (fillConnectedTimes_written_more q3
              (parseClientList (findClientListPayload lines)
                 (parseChannelList channelLines))) as [later Hlater].
  destruct (fillConnectedTimes q3 _) as [filled q4]. cbn [snd] in *.
  rewrite Hlater, H3, H2, H1. eexists (later ++ [_; _; _]). by rewrite <- app_assoc.
Qed.

(** X17: on a session that has just been opened, the first line written is
    the command that selects the server, before any list command, and the
    session is kept in [queryClient]; when that command fails nothing else
    is written. *)
Theorem fetchServerSnapshotFrom_selects `{JSRuntime} config query :
  ∃ query' later,
    (fetchServerSnapshotFrom config None (Returned query)).2 = Some query'
    ∧ written query' = later ++ useLine config :: written query
    ∧ (∀ message,
         (command query ("use port=" +:+ tsServerPort config
                         +:+ " nickname=" +:+ tsNickname config)).1 = Thrown message →
         later = []
         ∧ (fetchServerSnapshotFrom config None (Returned query)).1 = Thrown message).
Proof.
  unfold fetchServerSnapshotFrom.
  pose proof (command_written query ("use port=" +:+ tsServerPort config
                                     +:+ " nickname=" +:+ tsNickname config)) as Huse.
  assert (("use port=" +:+ tsServerPort config +:+ " nickname=" +:+ tsNickname config)
          +:+ CRLF = useLine config) as Hline.
  { unfold useLine. by rewrite !string_app_assoc. }
  rewrite Hline in Huse.
  destruct (command query _) as [[lines|message] q1]; cbn [fst snd] in *.
  - destruct (fetchServerSnapshot_written_more q1) as [later Hlater].
    destruct (fetchServerSnapshot q1) as [result q2]. cbn [snd] in *.
    exists q2, later. rewrite Hlater, Huse. by split_and!.
  - exists q1, []. rewrite Huse. split_and!; [done..|]. by intros ? [= <-].
Qed.

(** ** The framing of replies *)

Lemma lineBreak_cons c t :
  lineBreak (String c t) = if isBreak c then Some 0 else S <$> lineBreak t.
Proof.
  unfold lineBreak, isBreak. cbn [JS.indexOf].
  destruct (Ascii.eqb c JS.LF), (Ascii.eqb c JS.CR);
    destruct (JS.indexOf JS.LF t), (JS.indexOf JS.CR t); done.
Qed.

Lemma lineBreak_None_breakFree s : lineBreak s = None → breakFree s = true.
Proof.
  induction s as [|c t IH]; [done|]. rewrite lineBreak_cons.
  unfold breakFree. cbn [allChars]. destruct (isBreak c); [done|].
  destruct (lineBreak t); [done|]. intros _. by apply IH.
Qed.

Lemma consumed_cons c t i : consumed (String c t) (S i) = S (consumed t i).
Proof. unfold consumed. cbn [JS.charAt String.get Nat.add]. by destruct (_ || _)%bool. Qed.

Lemma pieces_nonempty s : ∃ h r, pieces s = h :: r.
Proof.
  destruct s as [|c t]; cbn; [by eauto|].
  destruct (isBreak c); [by eauto|]. destruct (pieces t); eauto.
Qed.

Lemma pieces_break (seg x : string) b :
  breakFree seg = true → isBreak b = true →
  pieces (seg +:+ String b x) = seg :: pieces x.
Proof.
  intros Hseg Hb. induction seg as [|c seg IH].
  - rewrite string_app_nil_l. cbn [pieces]. by rewrite Hb.
  - unfold breakFree in Hseg. cbn [allChars] in Hseg.
    apply andb_prop in Hseg as [Hc Hseg]. apply negb_true_iff in Hc.
    rewrite string_app_cons. cbn [pieces]. by rewrite Hc, (IH Hseg).
Qed.

Lemma pieces_breakFree s : breakFree s = true → pieces s = [s].
Proof.
  induction s as [|c t IH]; [done|]. unfold breakFree. cbn [allChars pieces].
  intros [Hc Ht]%andb_prop. apply negb_true_iff in Hc. by rewrite Hc, (IH Ht).
Qed.

Lemma pieces_Forall_breakFree s : Forall (λ piece, breakFree piece = true) (pieces s).
Proof.
  induction s as [|c t IH]; [by repeat constructor|]. cbn [pieces].
  destruct (isBreak c) eqn:Hc; [by constructor|].
  destruct (pieces t) as [|h r]; [by repeat (constructor; try (cbn; rewrite ?Hc))|].
  inversion_clear IH as [|?? Hh Hr]. constructor; [|done].
  unfold breakFree in *. cbn [allChars]. by rewrite Hc, Hh.
Qed.

(** The first line of a text: the line that its first line break ends is
    the first received line, unless it is empty. *)
Lemma receivedLines_break (seg x : string) b :
  breakFree seg = true → isBreak b = true →
  receivedLines (seg +:+ String b x)
  = (if JS.nonEmpty (JS.trim seg) then [JS.trim seg] else []) ++ receivedLines x.
Proof.
  intros Hseg Hb. unfold receivedLines. rewrite pieces_break by done.
  destruct (pieces_nonempty x) as (h & r & ->).
  cbn [removelast]. rewrite fmap_cons, filter_cons.
  destruct (JS.nonEmpty (JS.trim seg)).
  - by rewrite decide_True by done.
  - by rewrite decide_False by exact id.
Qed.

Lemma receivedLines_skip b (x : string) :
  isBreak b = true → receivedLines (String b x) = receivedLines x.
Proof.
  intros Hb. by rewrite <- (string_app_nil_l (String b x)), receivedLines_break.
Qed.

(** Where [readUntilErrorLine] cuts the buffer at its first line break. *)
Lemma lineBreak_cut buffer idx :
  lineBreak buffer = Some idx →
  ∃ b rest,
    buffer = JS.take idx buffer +:+ String b rest
    ∧ isBreak b = true ∧ breakFree (JS.take idx buffer) = true
    ∧ (JS.drop (consumed buffer idx) buffer = rest
       ∨ ∃ b', isBreak b' = true
               ∧ rest = String b' (JS.drop (consumed buffer idx) buffer)).
Proof.
  revert idx. induction buffer as [|c t IH]; intros idx; [done|].
  rewrite lineBreak_cons. destruct (isBreak c) eqn:Hc.
  - intros [= <-]. exists c, t. cbn [JS.take]. rewrite string_app_nil_l.
    split_and!; [done..|]. unfold consumed. cbn [JS.charAt String.get Nat.add].
    destruct t as [|d u]; cbn [String.get].
    + left. by destruct (_ || _)%bool.
    + destruct (bool_decide (Some c = Some JS.CR ∧ Some d = Some JS.LF)
                || bool_decide (Some c = Some JS.LF ∧ Some d = Some JS.CR))%bool
        eqn:Hpair; [|by left]. right. exists d. split; [|done].
      apply orb_true_iff in Hpair as [[_ [= ->]]%bool_decide_eq_true
                                     |[_ [= ->]]%bool_decide_eq_true]; done.
  - destruct (lineBreak t) as [i|] eqn:Ht; [|done]. intros [= <-].
    destruct (IH i eq_refl) as (b & rest & Hcut & Hb & Hfree & Hdrop).
    exists b, rest. cbn [JS.take]. rewrite string_app_cons, <- Hcut, consumed_cons.
    cbn [JS.drop]. split_and!; [done|done| |done].
    unfold breakFree in *. cbn [allChars]. by rewrite Hc, Hfree.
Qed.

(** One turn of the loop of [readUntilErrorLine] takes the first received
    line off the text, whatever follows the buffer. *)
Lemma receivedLines_turn buffer idx (more : string) :
  lineBreak buffer = Some idx →
  receivedLines (buffer +:+ more)
  = (if JS.nonEmpty (JS.trim (JS.take idx buffer))
     then [JS.trim (JS.take idx buffer)] else [])
    ++ receivedLines (JS.drop (consumed buffer idx) buffer +:+ more).
Proof.
  intros Hbreak.
  destruct (lineBreak_cut buffer idx Hbreak) as (b & rest & Hcut & Hb & Hfree & Hdrop).
  rewrite Hcut at 1. rewrite string_app_assoc, string_app_cons.
  rewrite receivedLines_break by done. f_equal.
  destruct Hdrop as [->|(b' & Hb' & ->)]; [done|].
  rewrite string_app_cons. by apply receivedLines_skip.
Qed.

Lemma untilStatus_app before after :
  untilStatus before = None →
  untilStatus (before ++ after) = (before ++.) <$> untilStatus after.
Proof.
  induction before as [|line before IH]; cbn [untilStatus app].
  - intros _. by destruct (untilStatus after).
  - destruct (isStatusLine line); [done|].
    destruct (untilStatus before); [done|]. intros _. rewrite IH by done.
    by destruct (untilStatus after).
Qed.

(** What [scanLines] does to the lines and to the buffer, in terms of the
    received lines of the text. *)
Lemma scanLines_received fuel buffer lines :
  (String.length buffer ≤ fuel)%nat →
  match scanLines fuel buffer lines with
  | Terminal lines' _ =>
      ∃ new, lines' = lines ++ new
        ∧ ∀ more, untilStatus (receivedLines (buffer +:+ more)) = Some new
  | Starved lines' rest =>
      ∃ new, lines' = lines ++ new ∧ untilStatus new = None
        ∧ ∀ more, receivedLines (buffer +:+ more)
                  = new ++ receivedLines (rest +:+ more)
  end.
Proof.
  revert buffer lines. induction fuel as [|fuel IH]; intros buffer lines Hfuel;
    cbn [scanLines]; (destruct (lineBreak buffer) as [idx|] eqn:Hbreak;
      [|exists []; by rewrite app_nil_r]);
    pose proof (λ more, receivedLines_turn buffer idx more Hbreak) as Hturn;
    set (line := JS.trim (JS.take idx buffer)) in *;
    fold (isStatusLine line); destruct (isStatusLine line) eqn:Hstatus.
  - rewrite (isStatusLine_nonEmpty _ Hstatus) in *. exists [line]. split; [done|].
    intros more. rewrite Hturn. cbn [app untilStatus]. by rewrite Hstatus.
  - apply lineBreak_lt in Hbreak. lia.
  - rewrite (isStatusLine_nonEmpty _ Hstatus) in *. exists [line]. split; [done|].
    intros more. rewrite Hturn. cbn [app untilStatus]. by rewrite Hstatus.
  - assert (String.length (JS.drop (consumed buffer idx) buffer) ≤ fuel)%nat as Hless.
    { rewrite drop_length. apply lineBreak_lt in Hbreak.
      pose proof (consumed_gt buffer idx). lia. }
    set (taken := if JS.nonEmpty line then [line] else []) in *.
    assert (untilStatus taken = None) as Htaken.
    { subst taken. destruct (JS.nonEmpty line); [|done]. cbn. by rewrite Hstatus. }
    assert ((if JS.nonEmpty line then lines ++ [line] else lines) = lines ++ taken)
      as ->.
    { subst taken. destruct (JS.nonEmpty line); [done|by rewrite app_nil_r]. }
    specialize (IH (JS.drop (consumed buffer idx) buffer) (lines ++ taken) Hless).
    destruct (scanLines fuel _ _) as [lines' rest|lines' rest].
    + destruct IH as (new & -> & Hnew). exists (taken ++ new).
      rewrite <- app_assoc. split; [done|]. intros more.
      by rewrite Hturn, untilStatus_app, Hnew.
    + destruct IH as (new & -> & Hnone & Hnew). exists (taken ++ new).
      rewrite <- app_assoc. split_and!; [done| |].
      * by rewrite untilStatus_app, Hnone.
      * intros more. by rewrite Hturn, Hnew, <- app_assoc.
Qed.

Lemma receivedLines_breakFree (s : string) : lineBreak s = None → receivedLines s = [].
Proof.
  intros Hs. unfold receivedLines.
  by rewrite pieces_breakFree by by apply lineBreak_None_breakFree.
Qed.

Lemma string_app_nil_r (x : string) : x +:+ EmptyString = x.
Proof. induction x as [|c x IH]; [done|]. by rewrite string_app_cons, IH. Qed.

(** What [readUntilErrorLine] returns is read off the text the stream
    delivers before it falls silent: the received lines up to the first
    status line, or the timeout when there is none. *)
Lemma readLinesFrom_received chunks after buffer lines :
  quiet after →
  (readLinesFrom ((Chunk <$> chunks) ++ after) buffer lines).1.1
  = match untilStatus (receivedLines (buffer +:+ chunksText chunks)) with
    | Some new => Returned (lines ++ new)
    | None => Thrown TIMEOUT_MESSAGE
    end.
Proof.
  intros Hquiet. revert buffer lines.
  induction chunks as [|data chunks IH]; intros buffer lines;
    pose proof (scanLines_received (String.length buffer) buffer lines (le_n _)) as Hscan;
    pose proof (scanLines_starved (String.length buffer) buffer lines) as Hstarved.
  - assert (∀ lines' rest,
              scanLines (String.length buffer) buffer lines = Starved lines' rest →
              (readLinesFrom after buffer lines).1.1 = Thrown TIMEOUT_MESSAGE) as Hout.
    { intros lines' rest Hs. destruct after as [|[data|] after']; [|done|];
        cbn [readLinesFrom]; by rewrite Hs. }
    assert (∀ lines' rest,
              scanLines (String.length buffer) buffer lines = Terminal lines' rest →
              (readLinesFrom after buffer lines).1.1 = Returned lines') as Hin.
    { intros lines' rest Hs. destruct after as [|[data|] after']; [|done|];
        cbn [readLinesFrom]; by rewrite Hs. }
    cbn [fmap list_fmap app chunksText foldr].
    destruct (scanLines _ _ _) as [lines' rest|lines' rest].
    + rewrite (Hin lines' rest eq_refl).
      destruct Hscan as (new & -> & Hnew). by rewrite Hnew.
    + rewrite (Hout lines' rest eq_refl).
      destruct Hscan as (new & -> & Hnone & Hnew).
      rewrite Hnew, untilStatus_app by done.
      by rewrite string_app_nil_r, receivedLines_breakFree by by eapply Hstarved.
  - cbn [fmap list_fmap app readLinesFrom chunksText foldr].
    destruct (scanLines _ _ _) as [lines' rest|lines' rest].
    + destruct Hscan as (new & -> & Hnew). by rewrite Hnew.
    + destruct Hscan as (new & -> & Hnone & Hnew).
      rewrite IH, Hnew, untilStatus_app, string_app_assoc by done.
      unfold chunksText. destruct (untilStatus (receivedLines _)) as [later|]; simpl.
      * by rewrite <- app_assoc.
      * done.
Qed.

Lemma events_chunks (events : list StreamEvent) :
  ∃ chunks after, events = (Chunk <$> chunks) ++ after ∧ quiet after.
Proof.
  induction events as [|event events (chunks & after & -> & Hquiet)].
  - by exists [], [].
  - destruct event as [data|].
    + by exists (data :: chunks), after.
    + by exists [], (Silence :: (Chunk <$> chunks) ++ after).
Qed.

Lemma readUntilErrorLine_fst query :
  (readUntilErrorLine query).1 = (readLinesFrom (incoming query) (buffer query) []).1.1.
Proof. unfold readUntilErrorLine. by destruct (readLinesFrom _ _ _) as [[? ?] ?]. Qed.

Lemma command_fst query commandText :
  (command query commandText).1
  = match (readUntilErrorLine (write query (commandText +:+ CRLF))).1 with
    | Thrown message => Thrown message
    | Returned lines =>
        let errorLine :=
          default EmptyString (List.find (JS.includes "error id=") (reverse lines)) in
        if bool_decide (parsePairs errorLine !! "id" = Some "0")
        then Returned (dropLast lines)
        else Thrown (failureMessage errorLine)
    end.
Proof.
  unfold command. destruct (readUntilErrorLine _) as [[lines|message] query']; [|done].
  cbn [fst]. by destruct (bool_decide _).
Qed.

(** X18: what a read returns depends on the text the stream delivers
    before it falls silent, not on how the transport cuts that text into
    chunks: it is the received lines (the pieces between line breaks,
    trimmed, without the empty ones) up to the first status line, and the
    timeout when the text holds no status line. *)
Theorem readUntilErrorLine_received query chunks after :
  incoming query = (Chunk <$> chunks) ++ after → quiet after →
  (readUntilErrorLine query).1
  = match untilStatus (receivedLines (buffer query +:+ chunksText chunks)) with
    | Some lines => Returned lines
    | None => Thrown TIMEOUT_MESSAGE
    end.
Proof.
  intros Hincoming Hquiet.
  by rewrite readUntilErrorLine_fst, Hincoming, readLinesFrom_received.
Qed.

Lemma readUntilErrorLine_received_witness :
  (readUntilErrorLine
     (sessionWith [Chunk "clid=1 client_"; Chunk ("type=0" +:+ String JS.CR EmptyString);
                   Chunk (NEWLINE +:+ "error id=0 msg=ok" +:+ NEWLINE +:+ "late");
                   Silence; Chunk "later"])).1
  = Returned ["clid=1 client_type=0"; "error id=0 msg=ok"].
Proof.
  exact (readUntilErrorLine_received
           (sessionWith [Chunk "clid=1 client_"; Chunk ("type=0" +:+ String JS.CR EmptyString);
                         Chunk (NEWLINE +:+ "error id=0 msg=ok" +:+ NEWLINE +:+ "late");
                         Silence; Chunk "later"])
           ["clid=1 client_"; "type=0" +:+ String JS.CR EmptyString;
            NEWLINE +:+ "error id=0 msg=ok" +:+ NEWLINE +:+ "late"]
           [Silence; Chunk "later"] eq_refl I).
Defined.

(** X19: two sessions that are sent the same command and are delivered the
    same text, cut into chunks in two ways, give the same outcome: the same
    body lines or the same error. *)
Theorem command_chunking query query' chunks chunks' after after' commandText :
  incoming query = (Chunk <$> chunks) ++ after → quiet after →
  incoming query' = (Chunk <$> chunks') ++ after' → quiet after' →
  buffer query +:+ chunksText chunks = buffer query' +:+ chunksText chunks' →
  (command query commandText).1 = (command query' commandText).1.
Proof.
  intros Hin Hquiet Hin' Hquiet' Htext. rewrite !command_fst.
  rewrite !readUntilErrorLine_fst. cbn [write incoming buffer].
  rewrite Hin, Hin', !readLinesFrom_received by done. by rewrite Htext.
Qed.

Lemma command_chunking_witness :
  (command (sessionWith [Chunk ("clid=1" +:+ CRLF +:+ "error id=0 msg=ok" +:+ CRLF)])
     "clientlist").1
  = (command
       (sessionWith [Chunk "clid"; Chunk ("=1" +:+ String JS.CR EmptyString);
                     Chunk (NEWLINE +:+ "error id=0 "); Chunk ("msg=ok" +:+ CRLF)])
       "clientlist").1.
Proof.
  apply (command_chunking _ _
           ["clid=1" +:+ CRLF +:+ "error id=0 msg=ok" +:+ CRLF]
           ["clid"; "=1" +:+ String JS.CR EmptyString; NEWLINE +:+ "error id=0 ";
            "msg=ok" +:+ CRLF] [] []); done.
Defined.

(** *** The shape of the collected lines *)

Lemma trimStart_head s :
  JS.trimStart s = EmptyString
  ∨ ∃ c t, JS.trimStart s = String c t ∧ JS.isWhite c = false.
Proof.
  induction s as [|c t IH]; [by left|]. cbn [JS.trimStart].
  destruct (JS.isWhite c) eqn:Hc; [done|]. right. by exists c, t.
Qed.

Lemma trimEnd_idemp s : JS.trimEnd (JS.trimEnd s) = JS.trimEnd s.
Proof.
  induction s as [|c t IH]; [done|]. cbn [JS.trimEnd].
  destruct (JS.trimEnd t) as [|d u] eqn:Ht.
  - destruct (JS.isWhite c) eqn:Hc; [done|]. cbn [JS.trimEnd]. by rewrite Hc.
  - cbn [JS.trimEnd] in *. by rewrite IH.
Qed.

Lemma trimEnd_head c t :
  JS.isWhite c = false → ∃ t', JS.trimEnd (String c t) = String c t'.
Proof.
  intros Hc. cbn [JS.trimEnd]. destruct (JS.trimEnd t); [rewrite Hc|]; eauto.
Qed.

Lemma trim_idemp s : JS.trim (JS.trim s) = JS.trim s.
Proof.
  unfold JS.trim. destruct (trimStart_head s) as [->|(c & t & -> & Hc)]; [done|].
  destruct (trimEnd_head c t Hc) as [t' Ht']. rewrite Ht' at 1.
  cbn [JS.trimStart]. rewrite Hc, <- Ht'. apply trimEnd_idemp.
Qed.

Lemma allChars_trimStart P s : allChars P s = true → allChars P (JS.trimStart s) = true.
Proof.
  induction s as [|c t IH]; [done|]. cbn [JS.trimStart].
  destruct (JS.isWhite c); [|done]. cbn [allChars]. intros [_ Ht]%andb_prop. auto.
Qed.

Lemma allChars_trimEnd P s : allChars P s = true → allChars P (JS.trimEnd s) = true.
Proof.
  induction s as [|c t IH]; [done|]. cbn [allChars JS.trimEnd].
  intros [Hc Ht]%andb_prop. specialize (IH Ht).
  destruct (JS.trimEnd t) as [|d u].
  - destruct (JS.isWhite c); [done|]. cbn. by rewrite Hc.
  - cbn [allChars] in *. by rewrite Hc, IH.
Qed.

Lemma receivedLines_collected s : Forall collectedLine (receivedLines s).
Proof.
  unfold receivedLines. apply Forall_forall. intros line.
  intros [Hne Hin]%list_elem_of_filter.
  apply list_elem_of_fmap in Hin as (piece & -> & Hpiece).
  assert (breakFree piece = true) as Hfree.
  { pose proof (pieces_Forall_breakFree s) as Hall.
    rewrite Forall_forall in Hall. apply Hall.
    destruct (pieces_nonempty s) as (h & r & Hs). rewrite Hs in *.
    clear -Hpiece. revert h Hpiece. induction r as [|x r IH]; intros h Hpiece.
    - by apply elem_of_nil in Hpiece.
    - cbn [removelast] in Hpiece. apply elem_of_cons in Hpiece as [->|Hpiece];
        [left|right; by apply IH]. }
  split_and!.
  - by apply Is_true_true.
  - unfold breakFree, JS.trim. by apply allChars_trimEnd, allChars_trimStart.
  - apply trim_idemp.
Qed.

Lemma untilStatus_prefix lines new :
  untilStatus lines = Some new → ∃ rest, lines = new ++ rest.
Proof.
  revert new. induction lines as [|line lines IH]; intros new; [done|].
  cbn [untilStatus]. destruct (isStatusLine line).
  - intros [= <-]. by exists lines.
  - destruct (untilStatus lines) as [found|]; [|done]. intros [= <-].
    destruct (IH found eq_refl) as [rest ->]. by exists rest.
Qed.

(** X20: every body line a command returns is not empty, holds no line
    break, has no white space at either end, and does not start with the
    status marker. *)
Theorem command_body_lines query commandText :
  match (command query commandText).1 with
  | Returned body =>
      Forall (λ line, collectedLine line ∧ isStatusLine line = false) body
  | Thrown _ => True
  end.
Proof.
  rewrite command_fst.
  set (sent := write query (commandText +:+ CRLF)).
  pose proof (readLinesFrom_lines (incoming sent) (buffer sent) []) as Hlines.
  destruct (events_chunks (incoming sent)) as (chunks & after & Hevents & Hquiet).
  pose proof (readUntilErrorLine_fst sent) as Hfst.
  rewrite Hevents, readLinesFrom_received in Hfst by done.
  rewrite readUntilErrorLine_fst. rewrite readUntilErrorLine_fst in Hfst.
  destruct (readLinesFrom (incoming sent) (buffer sent) []) as [[[lines|message] rest] events];
    cbn [fst] in *; [|done].
  destruct Hlines as (body & terminal & -> & Hbody & Hterm). rewrite app_nil_l in *.
  cbn zeta. destruct (bool_decide _); [|done]. rewrite dropLast_snoc.
  destruct (untilStatus _) as [new|] eqn:Hnew; [|done]. injection Hfst as <-.
  apply untilStatus_prefix in Hnew as [more Hnew].
  pose proof (receivedLines_collected (buffer sent +:+ chunksText chunks)) as Hall.
  rewrite Hnew, <- app_assoc in Hall. apply Forall_app in Hall as [Hall _].
  apply Forall_forall. intros line Hin. split.
  - rewrite Forall_forall in Hall. by apply Hall.
  - rewrite Forall_forall in Hbody. by apply Hbody.
Qed.

(** *** The status code *)

Lemma prefix_app (p s : string) : String.prefix p s = true → ∃ rest, s = p +:+ rest.
Proof.
  revert s. induction p as [|c p IH]; intros s; [by exists s|].
  destruct s as [|d s]; [done|]. cbn [String.prefix].
  destruct (ascii_dec c d) as [->|]; [|done]. intros Hp.
  destruct (IH s Hp) as [rest ->]. by exists rest.
Qed.

Lemma assignField_keeps (out : gmap string string) name value key :
  is_Some (out !! key) → is_Some (assignField name value out !! key).
Proof.
  intros Hkey. unfold assignField. destruct (String.eqb name PROTO); [done|].
  destruct (decide (name = key)) as [->|Hne].
  - rewrite lookup_insert_eq. by eexists.
  - by rewrite lookup_insert_ne.
Qed.

Lemma parsePair_keeps (out : gmap string string) pair key :
  is_Some (out !! key) → is_Some (parsePair out pair !! key).
Proof.
  intros Hkey. unfold parsePair. destruct (JS.nonEmpty pair); [|done].
  destruct (JS.indexOf "=" pair) as [eqIndex|]; by apply assignField_keeps.
Qed.

(** The record of a status line has an [id] field. *)
Lemma statusLine_id line : isStatusLine line = true → is_Some (parsePairs line !! "id").
Proof.
  intros Hline. apply prefix_app in Hline as [rest ->].
  unfold parsePairs.
  change ("error id=" +:+ rest) with ("error" +:+ String " " ("id=" +:+ rest)).
  rewrite split_app, foldl_app.
  destruct (split_nonempty " " rest) as (h & r & Hrest).
  assert (JS.split " " ("id=" +:+ rest) = ("id=" +:+ h) :: r) as ->.
  { change ("id=" +:+ rest) with (String "i" (String "d" (String "=" rest))).
    cbn [JS.split Ascii.eqb Bool.eqb]. by rewrite Hrest. }
  cbn [foldl].
  apply (foldl_invariant (λ m : gmap string string, is_Some (m !! "id")));
    [|intros; by apply parsePair_keeps].
  unfold parsePair at 1.
  change ("id=" +:+ h) with (String "i" (String "d" (String "=" h))).
  cbn [JS.nonEmpty JS.indexOf JS.take Ascii.eqb Bool.eqb fmap option_fmap option_map].
  unfold assignField. change (String.eqb "id" PROTO) with false. cbn match.
  rewrite lookup_insert_eq. by eexists.
Qed.

(** X21: an error that a command throws is the timeout or carries the
    status code of the reply: the [id] field of a status line is never
    missing, so the code in the message is never [undefined]. *)
Theorem command_error_code query commandText :
  match (command query commandText).1 with
  | Thrown message =>
      message = TIMEOUT_MESSAGE
      ∨ ∃ terminal code,
          isStatusLine terminal = true
          ∧ parsePairs terminal !! "id" = Some code ∧ code ≠ "0"
          ∧ message
            = "TeamSpeak query command failed (" +:+ code +:+ "): "
              +:+ default "Unknown TeamSpeak query error" (parsePairs terminal !! "msg")
  | Returned _ => True
  end.
Proof.
  rewrite command_fst, readUntilErrorLine_fst.
  set (sent := write query (commandText +:+ CRLF)).
  pose proof (readLinesFrom_lines (incoming sent) (buffer sent) []) as Hlines.
  destruct (readLinesFrom (incoming sent) (buffer sent) []) as [[[lines|message] rest] events];
    cbn [fst] in *; [|by left].
  destruct Hlines as (body & terminal & -> & Hbody & Hterm). rewrite app_nil_l.
  rewrite find_reverse_snoc by done.
  change (default EmptyString (Some terminal)) with terminal.
  destruct (bool_decide _) eqn:Hid; [done|]. right.
  apply bool_decide_eq_false in Hid.
  destruct (statusLine_id terminal Hterm) as [code Hcode].
  exists terminal, code. unfold failureMessage. rewrite Hcode.
  split_and!; [done|done| |done]. intros ->. by apply Hid.
Qed.

(** * The outcome of a command *)

Lemma untilStatus_found body terminal rest :
  Forall (λ line, isStatusLine line = false) body → isStatusLine terminal = true →
  untilStatus (body ++ terminal :: rest) = Some (body ++ [terminal]).
Proof.
  intros Hbody Hterm. induction Hbody as [|line body Hline Hbody IH];
    cbn [app untilStatus].
  - by rewrite Hterm.
  - by rewrite Hline, IH.
Qed.

Lemma untilStatus_none lines :
  Forall (λ line, isStatusLine line = false) lines → untilStatus lines = None.
Proof.
  induction 1 as [|line lines Hline Hlines IH]; [done|].
  cbn [untilStatus]. by rewrite Hline, IH.
Qed.

Lemma command_statusCheck query commandText :
  (command query commandText).1
  = match (readUntilErrorLine (write query (commandText +:+ CRLF))).1 with
    | Returned lines => statusCheck lines
    | Thrown message => Thrown message
    end.
Proof. rewrite command_fst. by destruct (readUntilErrorLine _).1. Qed.

Lemma find_none {A} (f : A → bool) (l : list A) :
  Forall (λ x, f x = false) l → List.find f l = None.
Proof. induction 1 as [|x l Hx Hl IH]; [done|]. cbn. by rewrite Hx. Qed.

(** Lines without the status marker make an error without a code. *)
Lemma statusCheck_unmarked lines :
  Forall (λ line, JS.includes "error id=" line = false) lines →
  statusCheck lines
  = Thrown "TeamSpeak query command failed (undefined): Unknown TeamSpeak query error".
Proof.
  intros Hlines. unfold statusCheck.
  rewrite find_none; [done|]. by apply Forall_reverse.
Qed.

(** A normal return rests on a line with the status marker and the code 0. *)
Lemma statusCheck_returned lines body :
  statusCheck lines = Returned body →
  body = dropLast lines
  ∧ ∃ line, line ∈ lines ∧ JS.includes "error id=" line = true
            ∧ parsePairs line !! "id" = Some "0".
Proof.
  unfold statusCheck.
  destruct (List.find _ (reverse lines)) as [line|] eqn:Hfind; [|done].
  change (default EmptyString (Some line)) with line.
  destruct (bool_decide _) eqn:Hid; [|done]. intros [= <-]. split; [done|].
  apply bool_decide_eq_true in Hid. apply List.find_some in Hfind as [Hin Hmark].
  exists line. split_and!; [|done..].
  by apply elem_of_reverse, list_elem_of_In.
Qed.

(** C7: a command is sent on a session to which the stream delivers the
    chunks [chunks] before it falls silent; [text] is what the buffer then
    has held, and the received lines are the lines of that text.  When the
    received lines are [body], without status line, then the status line
    [terminal], the command returns exactly [body] if the [id] field of the
    record of [terminal] is "0", and throws the error that carries the code
    and the message of that record otherwise; the [id] field of that record
    is never missing.  When the received lines hold no status line, the
    command throws the timeout.  In every case the outcome is what the
    code after the read makes of the lines read, and that code, on any
    lines whatever, returns normally only on a line that holds the status
    marker and the code "0": lines without the marker, where the code is
    missing, make the error with code [undefined]. *)
Theorem command_outcome query commandText chunks after :
  incoming query = (Chunk <$> chunks) ++ after → quiet after →
  let text := buffer query +:+ chunksText chunks in
  let outcome := (command query commandText).1 in
  (∀ body terminal rest,
     receivedLines text = body ++ terminal :: rest →
     Forall (λ line, isStatusLine line = false) body →
     isStatusLine terminal = true →
     is_Some (parsePairs terminal !! "id")
     ∧ (parsePairs terminal !! "id" = Some "0" → outcome = Returned body)
     ∧ (parsePairs terminal !! "id" ≠ Some "0" →
        outcome = Thrown (failureMessage terminal)))
  ∧ (Forall (λ line, isStatusLine line = false) (receivedLines text) →
     outcome = Thrown TIMEOUT_MESSAGE)
  ∧ outcome
    = match (readUntilErrorLine (write query (commandText +:+ CRLF))).1 with
      | Returned lines => statusCheck lines
      | Thrown message => Thrown message
      end
  ∧ (∀ lines body,
       statusCheck lines = Returned body →
       body = dropLast lines
       ∧ ∃ line, line ∈ lines ∧ JS.includes "error id=" line = true
                 ∧ parsePairs line !! "id" = Some "0")
  ∧ (∀ lines,
       Forall (λ line, JS.includes "error id=" line = false) lines →
       statusCheck lines
       = Thrown "TeamSpeak query command failed (undefined): Unknown TeamSpeak query error").
Proof.
  intros Hincoming Hquiet text outcome.
  assert (outcome
          = match untilStatus (receivedLines text) with
            | Some lines => statusCheck lines
            | None => Thrown TIMEOUT_MESSAGE
            end) as Houtcome.
  { subst outcome text. rewrite command_statusCheck, readUntilErrorLine_fst.
    cbn [write incoming buffer]. rewrite Hincoming, readLinesFrom_received by done.
    by destruct (untilStatus _). }
  split_and!.
  - intros body terminal rest Hlines Hbody Hterm.
    rewrite Houtcome, Hlines, untilStatus_found by done.
    unfold statusCheck. rewrite find_reverse_snoc, dropLast_snoc by done.
    change (default EmptyString (Some terminal)) with terminal.
    split_and!.
    + by apply statusLine_id.
    + intros Hid. by rewrite bool_decide_eq_true_2.
    + intros Hid. by rewrite bool_decide_eq_false_2.
  - intros Hnone. by rewrite Houtcome, untilStatus_none.
  - apply command_statusCheck.
  - apply statusCheck_returned.
  - apply statusCheck_unmarked.
Qed.

Lemma command_outcome_witness :
  (command
     (sessionWith [Chunk "clid=1 client_";
                   Chunk ("type=0" +:+ CRLF +:+ "error id=0 msg=ok" +:+ CRLF)])
     "clientlist").1
  = Returned ["clid=1 client_type=0"]
  ∧ (command (sessionWith [Chunk ("error id=1024 msg=invalid\sserverID" +:+ CRLF)])
       "use port=1").1
    = Thrown "TeamSpeak query command failed (1024): invalid serverID"
  ∧ (command (sessionWith [Chunk "clid=1"; Silence]) "clientlist").1
    = Thrown TIMEOUT_MESSAGE.
Proof.
  split_and!.
  - pose proof (command_outcome
                  (sessionWith [Chunk "clid=1 client_";
                                Chunk ("type=0" +:+ CRLF +:+ "error id=0 msg=ok" +:+ CRLF)])
                  "clientlist"
                  ["clid=1 client_"; "type=0" +:+ CRLF +:+ "error id=0 msg=ok" +:+ CRLF]
                  [] eq_refl I) as Hwhole.
    cbv zeta in Hwhole. destruct Hwhole as (Hfound & _).
    destruct (Hfound ["clid=1 client_type=0"] "error id=0 msg=ok" [])
      as (_ & Hok & _); [by vm_compute|by repeat constructor|done|].
    apply Hok. by vm_compute.
  - pose proof (command_outcome
                  (sessionWith [Chunk ("error id=1024 msg=invalid\sserverID" +:+ CRLF)])
                  "use port=1"
                  ["error id=1024 msg=invalid\sserverID" +:+ CRLF]
                  [] eq_refl I) as Hwhole.
    cbv zeta in Hwhole. destruct Hwhole as (Hfound & _).
    destruct (Hfound [] "error id=1024 msg=invalid\sserverID" [])
      as (_ & _ & Hfailed); [by vm_compute|by constructor|done|].
    rewrite Hfailed; by vm_compute.
  - pose proof (command_outcome (sessionWith [Chunk "clid=1"; Silence]) "clientlist"
                  ["clid=1"] [Silence] eq_refl I) as Hwhole.
    cbv zeta in Hwhole. destruct Hwhole as (_ & Hnone & _).
    apply Hnone. by vm_compute.
Defined.

(** A reply whose last line lacks the status marker would not pass for a
    success. *)
Example statusCheck_malformed :
  statusCheck ["clid=1"; "id=0 msg=ok"]
  = Thrown "TeamSpeak query command failed (undefined): Unknown TeamSpeak query error".
Proof. by vm_compute. Qed.
